(** * adequate: the data-access layer (lib/db)

    A shallow embedding of [lib/db/tracer.go] (the driver-level SQL
    instrumentation), [lib/db/migrate.go] (the transactional schema
    migration engine) and [WithTx] of [internal/store], together with the
    parts of the Go standard library they call, and their properties.

    Layout: the Go library model, the logger records, the tracer, the
    migration engine, [WithTx], a small reference engine used for concrete
    runs, and then the lemmas and theorems. *)

From Stdlib Require Import ZArith Lia List Ascii String Bool Sorted Permutation.
From stdpp Require Import base option list gmap strings sorting.

Local Open Scope string_scope.
Local Open Scope Z_scope.

(* ===================================================================== *)
(** ** Go library model *)
(* ===================================================================== *)

Module Go.

(** Go [error] values.  [errorString] is what [errors.New] builds; the
    sentinels of [database/sql] and [database/sql/driver] are kept apart
    because callers compare against them by identity. *)
Inductive error : Type :=
| ErrSkip                                   (* driver.ErrSkip *)
| ErrTxDone                                 (* sql.ErrTxDone *)
| ErrSyntax                                 (* strconv.ErrSyntax *)
| ErrRange                                  (* strconv.ErrRange *)
| NumError (fn num : string) (err : error)  (* *strconv.NumError *)
| errorString (msg : string).               (* errors.New(msg) *)

(** [strconv.Quote], byte by byte: the quote and the backslash are
    escaped, the control characters are written as Go writes them, and
    every other byte stands for itself (a rune outside ASCII is taken to
    be a printable one). *)
Definition hex_digit (n : N) : ascii :=
  match n with
  | 0 => "0" | 1 => "1" | 2 => "2" | 3 => "3" | 4 => "4" | 5 => "5"
  | 6 => "6" | 7 => "7" | 8 => "8" | 9 => "9" | 10 => "a" | 11 => "b"
  | 12 => "c" | 13 => "d" | 14 => "e" | _ => "f"
  end%N%char.

Definition quote_byte (c : ascii) : string :=
  let n := N_of_ascii c in
  if (n =? 0x22)%N then String "\" (String c EmptyString)
  else if (n =? 0x5C)%N then "\\"
  else if (n =? 0x07)%N then "\a"
  else if (n =? 0x08)%N then "\b"
  else if (n =? 0x0C)%N then "\f"
  else if (n =? 0x0A)%N then "\n"
  else if (n =? 0x0D)%N then "\r"
  else if (n =? 0x09)%N then "\t"
  else if (n =? 0x0B)%N then "\v"
  else if (n <? 0x20)%N || (n =? 0x7F)%N
  then String "\" (String "x" (String (hex_digit (n / 16)) (String (hex_digit (n mod 16)) EmptyString)))
  else String c EmptyString.

Fixpoint quote_bytes (s : string) : string :=
  match s with
  | EmptyString => EmptyString
  | String c t => quote_byte c +:+ quote_bytes t
  end.

Definition Quote (s : string) : string :=
  String "034" (quote_bytes s +:+ String "034" EmptyString).

Fixpoint Error (e : error) : string :=
  match e with
  | ErrSkip => "driver: skip fast-path; continue as if unimplemented"
  | ErrTxDone => "sql: transaction has already been committed or rolled back"
  | ErrSyntax => "invalid syntax"
  | ErrRange => "value out of range"
  | NumError fn num err =>
      "strconv." +:+ fn +:+ ": parsing " +:+ Quote num +:+ ": " +:+ Error err
  | errorString msg => msg
  end.

#[export] Instance error_eq_dec : EqDecision error.
Proof. solve_decision. Defined.

(** A byte of a Go string, as a number in [0, 255]. *)
Definition byte_of (c : ascii) : Z := Z.of_N (N_of_ascii c).

(** A byte outside ASCII. *)
Definition high_byte (c : ascii) : bool := 0x80 <=? byte_of c.

(** *** unicode/utf8 *)

Definition RuneError : Z := 0xFFFD.
Definition locb : Z := 0x80.
Definition hicb : Z := 0xBF.
Definition maskx : Z := 0x3F.
Definition mask2 : Z := 0x1F.
Definition mask3 : Z := 0x0F.
Definition mask4 : Z := 0x07.

(** The [first] table of [unicode/utf8]: what a leading byte announces.
    [FLead sz lo hi] is a sequence of [sz] bytes whose second byte lies in
    [lo..hi] (the accept range). *)
Inductive firstInfo : Type :=
| FAscii
| FInvalid
| FLead (sz : nat) (lo hi : Z).

Definition first (b : Z) : firstInfo :=
  if b <? 0x80 then FAscii
  else if b <? 0xC2 then FInvalid
  else if b <? 0xE0 then FLead 2 locb hicb
  else if b =? 0xE0 then FLead 3 0xA0 hicb
  else if b <? 0xED then FLead 3 locb hicb
  else if b =? 0xED then FLead 3 locb 0x9F
  else if b <? 0xF0 then FLead 3 locb hicb
  else if b =? 0xF0 then FLead 4 0x90 hicb
  else if b <? 0xF4 then FLead 4 locb hicb
  else if b =? 0xF4 then FLead 4 locb 0x8F
  else FInvalid.

Definition cont (b : Z) : bool := (locb <=? b) && (b <=? hicb).

(** [utf8.DecodeRuneInString]: the first rune of [s] and its width in
    bytes; an invalid or truncated sequence is [RuneError] of width 1. *)
Definition DecodeRuneInString (s : string) : Z * nat :=
  match s with
  | EmptyString => (RuneError, 0%nat)
  | String c0 t0 =>
    let s0 := byte_of c0 in
    match first s0 with
    | FAscii => (s0, 1%nat)
    | FInvalid => (RuneError, 1%nat)
    | FLead sz lo hi =>
      match t0 with
      | EmptyString => (RuneError, 1%nat)
      | String c1 t1 =>
        let s1 := byte_of c1 in
        if (s1 <? lo) || (hi <? s1) then (RuneError, 1%nat)
        else if (sz <=? 2)%nat
        then (Z.lor (Z.shiftl (Z.land s0 mask2) 6) (Z.land s1 maskx), 2%nat)
        else
          match t1 with
          | EmptyString => (RuneError, 1%nat)
          | String c2 t2 =>
            let s2 := byte_of c2 in
            if negb (cont s2) then (RuneError, 1%nat)
            else if (sz <=? 3)%nat
            then (Z.lor (Z.lor (Z.shiftl (Z.land s0 mask3) 12)
                               (Z.shiftl (Z.land s1 maskx) 6))
                        (Z.land s2 maskx), 3%nat)
            else
              match t2 with
              | EmptyString => (RuneError, 1%nat)
              | String c3 _ =>
                let s3 := byte_of c3 in
                if negb (cont s3) then (RuneError, 1%nat)
                else (Z.lor (Z.lor (Z.lor (Z.shiftl (Z.land s0 mask4) 18)
                                          (Z.shiftl (Z.land s1 maskx) 12))
                                   (Z.shiftl (Z.land s2 maskx) 6))
                            (Z.land s3 maskx), 4%nat)
              end
          end
      end
    end
  end.

(** What [for i, r := range s] yields: every rune of [s] in order, each
    with the bytes it was decoded from.  [skip] counts the bytes of the
    current rune still to be stepped over. *)
Fixpoint range_from (skip : nat) (s : string) : list (Z * string) :=
  match s with
  | EmptyString => []
  | String _ t =>
    match skip with
    | S k => range_from k t
    | O =>
      let '(r, w) := DecodeRuneInString s in
      (r, substring 0 w s) :: range_from (w - 1) t
    end
  end.

Definition range (s : string) : list (Z * string) := range_from 0 s.

(** *** unicode *)

(** [unicode.IsSpace]: the Latin-1 spaces, and [White_Space] above them. *)
Definition IsSpace (r : Z) : bool :=
  if r <=? 0xFF
  then (r =? 0x09) || (r =? 0x0A) || (r =? 0x0B) || (r =? 0x0C)
       || (r =? 0x0D) || (r =? 0x20) || (r =? 0x85) || (r =? 0xA0)
  else (r =? 0x1680) || ((0x2000 <=? r) && (r <=? 0x200A))
       || (r =? 0x2028) || (r =? 0x2029) || (r =? 0x202F)
       || (r =? 0x205F) || (r =? 0x3000).

(** *** strings *)

Fixpoint HasPrefix (s prefix : string) : bool :=
  match prefix, s with
  | EmptyString, _ => true
  | String p ps, String c cs => if Ascii.eqb p c then HasPrefix cs ps else false
  | String _ _, EmptyString => false
  end.

Fixpoint HasSuffix (s suffix : string) : bool :=
  String.eqb s suffix
  || match s with
     | EmptyString => false
     | String _ t => HasSuffix t suffix
     end.

(** [strings.SplitN(s, sep, 2)[0]] for a one-byte [sep]: the text before
    the first [sep], the whole of [s] when there is none. *)
Fixpoint SplitN2_head (s : string) (sep : ascii) : string :=
  match s with
  | EmptyString => EmptyString
  | String c t => if Ascii.eqb c sep then EmptyString else String c (SplitN2_head t sep)
  end.

(** [strings.ReplaceAll(s, old, new)] for a one-byte [old]. *)
Fixpoint ReplaceAll (s : string) (old : ascii) (new : string) : string :=
  match s with
  | EmptyString => EmptyString
  | String c t =>
    if Ascii.eqb c old then new +:+ ReplaceAll t old new
    else String c (ReplaceAll t old new)
  end.

(** The call of [compact]: newlines replaced by spaces. *)
Abbreviation nl := "010"%char.
Abbreviation unnl s := (ReplaceAll s nl " ").

(** The loop of [strings.FieldsFunc] over the runes of the string.
    [start] is the field being read ([start >= 0] in the source), held as
    the bytes read so far. *)
Fixpoint FieldsFunc_loop (f : Z -> bool) (rs : list (Z * string))
    (start : option string) : list string :=
  match rs with
  | [] => match start with Some fld => [fld] | None => [] end
  | (r, bs) :: rs' =>
    if f r
    then match start with
         | Some fld => fld :: FieldsFunc_loop f rs' None
         | None => FieldsFunc_loop f rs' None
         end
    else FieldsFunc_loop f rs'
           (Some (match start with Some fld => fld +:+ bs | None => bs end))
  end.

Definition FieldsFunc (s : string) (f : Z -> bool) : list string :=
  FieldsFunc_loop f (range s) None.

(** [strings.Fields]: split around runs of white space ([unicode.IsSpace]). *)
Definition Fields (s : string) : list string := FieldsFunc s IsSpace.

Fixpoint Join (elems : list string) (sep : string) : string :=
  match elems with
  | [] => EmptyString
  | [x] => x
  | x :: rest => x +:+ sep +:+ Join rest sep
  end.

(** *** strconv *)

Definition maxUint64 : Z := 2 ^ 64 - 1.
Definition uintCutoff : Z := maxUint64 / 10 + 1.

(** The digit loop of [strconv.ParseUint(s, 10, 64)]. *)
Fixpoint ParseUint_loop (s : string) (n : Z) : error + Z :=
  match s with
  | EmptyString => inr n
  | String c t =>
    let b := byte_of c in
    if (0x30 <=? b) && (b <=? 0x39) then
      if uintCutoff <=? n then inl ErrRange
      else
        let n1 := n * 10 + (b - 0x30) in
        if maxUint64 <? n1 then inl ErrRange else ParseUint_loop t n1
    else inl ErrSyntax
  end.

Definition ParseUint (s : string) : error + Z :=
  match s with
  | EmptyString => inl ErrSyntax
  | _ => ParseUint_loop s 0
  end.

(** [strconv.Atoi] on a 64-bit platform: an optional sign, then decimal
    digits, within the range of [int]. *)
Definition Atoi (s : string) : error + Z :=
  let wrap (e : error) : error + Z := inl (NumError "Atoi" s e) in
  match s with
  | EmptyString => wrap ErrSyntax
  | String c t =>
    let neg := Ascii.eqb c "-" in
    let digits := if Ascii.eqb c "+" || neg then t else s in
    match ParseUint digits with
    | inl e => wrap e
    | inr un =>
      if negb neg && (2 ^ 63 <=? un) then wrap ErrRange
      else if neg && (2 ^ 63 <? un) then wrap ErrRange
      else inr (if neg then - un else un)
    end
  end.

(** *** database/sql/driver *)

(** [driver.Value]: the values a driver accepts as statement arguments. *)
Inductive Value : Type :=
| VNil
| VInt64 (n : Z)
| VFloat64 (bits : Z)
| VBool (b : bool)
| VBytes (b : string)
| VString (s : string)
| VTime (unixNano : Z).

Record NamedValue : Type := mkNamedValue {
  Name : string;
  Ordinal : Z;
  Val : Value;
}.

End Go.

Import Go.

(* ===================================================================== *)
(** ** Logger records *)
(* ===================================================================== *)

(** The structured logger is a collaborator: what the data-access layer
    hands to it is recorded, one [Entry] per call, in call order. *)
Module Logger.

Inductive Level : Type := INFO | WARN | ERROR.

(** The value of a key in a key-value pair of a log call. *)
Inductive Field : Type :=
| FString (s : string)
| FInt (n : Z)
| FDuration (d : Z)
| FArgs (args : list NamedValue).

Record Entry : Type := mkEntry {
  level : Level;
  msg : string;
  kv : list (string * Field);
}.

Definition Info (m : string) (kvs : list (string * Field)) : Entry :=
  mkEntry INFO m kvs.
Definition Error (m : string) (kvs : list (string * Field)) : Entry :=
  mkEntry ERROR m kvs.
(** The skipped frames only change the reported call site. *)
Definition WarnSkipframes (skip : Z) (m : string) (kvs : list (string * Field)) : Entry :=
  mkEntry WARN m kvs.
Definition ErrorSkipframes (skip : Z) (m : string) (kvs : list (string * Field)) : Entry :=
  mkEntry ERROR m kvs.

(** The value logged under key [k], if any. *)
Fixpoint field (k : string) (kvs : list (string * Field)) : option Field :=
  match kvs with
  | [] => None
  | (k', v) :: rest => if String.eqb k k' then Some v else field k rest
  end.

End Logger.

(* ===================================================================== *)
(** ** lib/db/tracer.go *)
(* ===================================================================== *)

Module Trace.

Record Tracer : Type := mkTracer {
  SlowThresh : Z;     (* time.Duration, nanoseconds; 0 = off *)
  MaskArgs : bool;
  SampleEvery : Z;    (* 0/1 => all; N => 1/N *)
}.

Section Driver.

(** The wrapped driver is a parameter.  [D] is everything on its side of
    the interface: the state of the underlying connection and of the
    process clock.  [Result], [Rows], [DTx] and [Stmt] are the driver's
    own result types, [Ctx] a [context.Context], [TxOptions] the options
    of [BeginTx]. *)
Context {D Result Rows DTx Stmt Ctx TxOptions : Type}.

(** [time.Now], read off the environment (monotonic nanoseconds). *)
Variable now : D -> Z.

(** A [driver.Conn].  [Prepare], [Close] and [Begin] belong to the
    interface; the context-aware methods are optional interfaces, found
    by a type assertion, so each is present or absent. *)
Record Conn : Type := mkConn {
  conn_Prepare : string -> D -> (option Stmt * option error) * D;
  conn_Close : D -> option error * D;
  conn_Begin : D -> (option DTx * option error) * D;
  conn_BeginTx :
    option (Ctx -> TxOptions -> D -> (option DTx * option error) * D);
  conn_ExecContext :
    option (Ctx -> string -> list NamedValue -> D ->
            (option Result * option error) * D);
  conn_QueryContext :
    option (Ctx -> string -> list NamedValue -> D ->
            (option Rows * option error) * D);
}.

Record tracedConn : Type := mkTracedConn {
  base : Conn;
  t : option Tracer;   (* *Tracer; None is nil *)
  n : Z;               (* uint64 *)
}.

(** The wrapped [driver.Driver] is held by its [Open], which yields a
    connection or an error. *)
Record tracedDriver : Type := mkTracedDriver {
  drv_base : string -> D -> (error + Conn) * D;
  drv_t : option Tracer;
}.

(** The methods below return [None] where the Go code would panic. *)

Definition Open (d : tracedDriver) (name : string) (env : D)
    : (error + tracedConn) * D :=
  let '(r, env') := drv_base d name env in
  match r with
  | inl err => (inl err, env')
  | inr c => (inr (mkTracedConn c (drv_t d) 0), env')
  end.

Definition Prepare (c : tracedConn) (q : string) (env : D) :=
  conn_Prepare (base c) q env.

Definition Close (c : tracedConn) (env : D) := conn_Close (base c) env.

Definition Begin (c : tracedConn) (env : D)
    : (option DTx * option error) * D :=
  ((None, Some ErrSkip), env).

Definition BeginTx (c : tracedConn) (ctx : Ctx) (opts : TxOptions) (env : D)
    : (option DTx * option error) * D :=
  match conn_BeginTx (base c) with
  | None => ((None, Some ErrSkip), env)
  | Some cbtx => cbtx ctx opts env
  end.

Definition compact (s : string) : string :=
  let s := ReplaceAll s "010"%char " " in
  Join (Fields s) " ".

Definition maskArgs (args : list NamedValue) (mask : bool) : Logger.Field :=
  if mask then Logger.FString "[masked]" else Logger.FArgs args.

Definition sampled (c : tracedConn) : option (bool * tracedConn) :=
  match t c with
  | None => None
  | Some tr =>
    let n_ := SampleEvery tr in
    if n_ <=? 1 then Some (true, c)
    else
      let c' := mkTracedConn (base c) (t c) ((n c + 1) mod 2 ^ 64) in
      Some (n c' mod n_ =? 0, c')
  end.

Definition log (c : tracedConn) (kind sqlq : string) (args : list NamedValue)
    (dur : Z) (err : option error) (out : list Logger.Entry)
    : option (tracedConn * list Logger.Entry) :=
  match t c with
  | None => Some (c, out)
  | Some tr =>
    let sqlq := compact sqlq in
    match err with
    | Some e =>
      Some (c, (out ++ [Logger.ErrorSkipframes 2 "db.query.error"
                          [("kind", Logger.FString kind);
                           ("sql", Logger.FString sqlq);
                           ("args", maskArgs args (MaskArgs tr));
                           ("dur", Logger.FDuration dur);
                           ("err", Logger.FString (Error e))]])%list)
    | None =>
      if (SlowThresh tr <=? 0) || (dur <? SlowThresh tr) then Some (c, out)
      else
        match sampled c with
        | None => None
        | Some (false, c') => Some (c', out)
        | Some (true, c') =>
          Some (c', (out ++ [Logger.WarnSkipframes 2 "db.query.slow"
                               [("kind", Logger.FString kind);
                                ("sql", Logger.FString sqlq);
                                ("dur", Logger.FDuration dur)]])%list)
        end
    end
  end.

(** The outcome of a traced call: what the caller gets back, the
    connection with its counter, the driver side, and the log. *)
Record Traced (A : Type) : Type := mkTraced {
  ret_val : option A;
  ret_err : option error;
  conn' : tracedConn;
  env' : D;
  out' : list Logger.Entry;
}.
Arguments mkTraced {A}.
Arguments ret_val {A}.
Arguments ret_err {A}.
Arguments conn' {A}.
Arguments env' {A}.
Arguments out' {A}.

Definition ExecContext (c : tracedConn) (ctx : Ctx) (q : string)
    (args : list NamedValue) (env : D) (out : list Logger.Entry)
    : option (Traced Result) :=
  match conn_ExecContext (base c) with
  | None => Some (mkTraced None (Some ErrSkip) c env out)
  | Some ce =>
    let start := now env in
    let '((res, err), env1) := ce ctx q args env in
    match log c "exec" q args (now env1 - start) err out with
    | None => None
    | Some (c1, out1) => Some (mkTraced res err c1 env1 out1)
    end
  end.

Definition QueryContext (c : tracedConn) (ctx : Ctx) (q : string)
    (args : list NamedValue) (env : D) (out : list Logger.Entry)
    : option (Traced Rows) :=
  match conn_QueryContext (base c) with
  | None => Some (mkTraced None (Some ErrSkip) c env out)
  | Some cq =>
    let start := now env in
    let '((rows, err), env1) := cq ctx q args env in
    match log c "query" q args (now env1 - start) err out with
    | None => None
    | Some (c1, out1) => Some (mkTraced rows err c1 env1 out1)
    end
  end.

(** *** Runs of the event hook *)

(** One call of [log], as [ExecContext] or [QueryContext] makes it. *)
Record LogCall : Type := mkLogCall {
  lc_kind : string;
  lc_sql : string;
  lc_args : list NamedValue;
  lc_dur : Z;
  lc_err : option error;
}.

(** The calls of [log] made on one connection, in order. *)
Fixpoint log_all (c : tracedConn) (lcs : list LogCall) (out : list Logger.Entry)
    : option (tracedConn * list Logger.Entry) :=
  match lcs with
  | [] => Some (c, out)
  | lc :: rest =>
    match log c (lc_kind lc) (lc_sql lc) (lc_args lc) (lc_dur lc) (lc_err lc) out with
    | None => None
    | Some (c1, out1) => log_all c1 rest out1
    end
  end.

(** A qualifying event: the call succeeded and took at least the
    (enabled) threshold. *)
Definition qualifying (tr : Tracer) (lc : LogCall) : bool :=
  match lc_err lc with
  | Some _ => false
  | None => (0 <? SlowThresh tr) && (SlowThresh tr <=? lc_dur lc)
  end.

Definition is_slow_event (e : Logger.Entry) : bool :=
  String.eqb (Logger.msg e) "db.query.slow".

Definition is_error_event (e : Logger.Entry) : bool :=
  String.eqb (Logger.msg e) "db.query.error".

(** The slow-query warnings in a log, and the qualifying calls of a run. *)
Definition slow_count (out : list Logger.Entry) : Z :=
  Z.of_nat (length (List.filter is_slow_event out)).

Definition qualifying_count (tr : Tracer) (lcs : list LogCall) : Z :=
  Z.of_nat (length (List.filter (qualifying tr) lcs)).

(** The error entries in a log, and the failed calls of a run. *)
Definition error_count (out : list Logger.Entry) : Z :=
  Z.of_nat (length (List.filter is_error_event out)).

Definition failed (lc : LogCall) : bool :=
  match lc_err lc with Some _ => true | None => false end.

Definition failed_count (lcs : list LogCall) : Z :=
  Z.of_nat (length (List.filter failed lcs)).

(** An entry that holds no argument list, under any key. *)
Definition no_args (en : Logger.Entry) : Prop :=
  Logger.field "args" (Logger.kv en) = None
  /\ forall k a, ~ In (k, Logger.FArgs a) (Logger.kv en).


End Driver.

Arguments mkTraced {D Result Rows DTx Stmt Ctx TxOptions A}.
Arguments ret_val {D Result Rows DTx Stmt Ctx TxOptions A}.
Arguments ret_err {D Result Rows DTx Stmt Ctx TxOptions A}.
Arguments conn' {D Result Rows DTx Stmt Ctx TxOptions A}.
Arguments env' {D Result Rows DTx Stmt Ctx TxOptions A}.
Arguments out' {D Result Rows DTx Stmt Ctx TxOptions A}.

(** *** Query-text normalization, as the specification words it

    "Collapse all whitespace runs (including newlines/tabs) to single
    spaces and trim."  Stated on the runes of the string. *)

Definition is_space_rune (u : Z * string) : bool := IsSpace (fst u).

Definition space_rune : Z * string := (0x20, " ").

(** Every maximal run of white space becomes one space; [in_run] tells
    that the previous rune was white space. *)
Fixpoint collapse_runs (rs : list (Z * string)) (in_run : bool) : list (Z * string) :=
  match rs with
  | [] => []
  | u :: rest =>
    if is_space_rune u
    then if in_run then collapse_runs rest true
         else space_rune :: collapse_runs rest true
    else u :: collapse_runs rest false
  end.

Fixpoint drop_spaces (rs : list (Z * string)) : list (Z * string) :=
  match rs with
  | [] => []
  | u :: rest => if is_space_rune u then drop_spaces rest else rs
  end.

(** White space removed at both ends. *)
Definition trim_runes (rs : list (Z * string)) : list (Z * string) :=
  rev (drop_spaces (rev (drop_spaces rs))).

Fixpoint bytes_of (rs : list (Z * string)) : string :=
  match rs with
  | [] => EmptyString
  | u :: rest => snd u +:+ bytes_of rest
  end.

Definition normalize (s : string) : string :=
  bytes_of (trim_runes (collapse_runs (range s) false)).

(** The ASCII characters that break or tab a line. *)
Definition line_breaking (c : ascii) : bool :=
  let b := byte_of c in (0x09 <=? b) && (b <=? 0x0D).

Fixpoint string_forall (p : ascii -> bool) (s : string) : bool :=
  match s with
  | EmptyString => true
  | String c t => p c && string_forall p t
  end.

(** White space removed at the end, by recursion on the list. *)
Fixpoint drop_trailing_spaces (rs : list (Z * string)) : list (Z * string) :=
  match rs with
  | [] => []
  | u :: rest =>
    match drop_trailing_spaces rest with
    | [] => if is_space_rune u then [] else [u]
    | rest' => u :: rest'
    end
  end.

(** A text without line breaks. *)
Definition no_break (c : ascii) : bool := negb (line_breaking c).

Definition clean (s : string) : Prop := string_forall no_break s = true.

(** The text after its first [k] bytes. *)
Fixpoint sdrop (k : nat) (s : string) : string :=
  match k, s with
  | O, _ => s
  | S k', String _ t => sdrop k' t
  | S _, EmptyString => EmptyString
  end.

(** Runes that a decoder reads back as they are, one after the other,
    from the bytes they hold. *)
Fixpoint chain (rs : list (Z * string)) : Prop :=
  match rs with
  | [] => True
  | u :: rest =>
    DecodeRuneInString (snd u +:+ bytes_of rest) = (fst u, String.length (snd u))
    /\ snd u <> EmptyString
    /\ chain rest
  end.

(** Two texts that a decoder cannot tell apart while it reads the tail
    of a sequence: the same continuation bytes, then a byte that is none
    or the end, in both. *)
Fixpoint same_cont (t1 t2 : string) : Prop :=
  match t1, t2 with
  | EmptyString, EmptyString => True
  | EmptyString, String b _ => cont (byte_of b) = false
  | String a _, EmptyString => cont (byte_of a) = false
  | String a r1, String b r2 =>
    (cont (byte_of a) = false /\ cont (byte_of b) = false)
    \/ (a = b /\ same_cont r1 r2)
  end.

(** Runes in normal form: the only white space is the single space, it
    never comes first (after a space, or at the start when [after_space]
    is set), never last and never twice in a row. *)
Fixpoint tidy (after_space : bool) (rs : list (Z * string)) : Prop :=
  match rs with
  | [] => True
  | u :: rest =>
    if is_space_rune u
    then after_space = false /\ u = space_rune /\ rest <> [] /\ tidy true rest
    else tidy false rest
  end.

(** A text made of white space only, rune by rune. *)
Definition blank (s : string) : bool := forallb is_space_rune (range s).

End Trace.

(* ===================================================================== *)
(** ** lib/db/migrate.go *)
(* ===================================================================== *)

Module Migration.

Record migration : Type := mkMigration {
  v : Z;          (* int *)
  name : string;
  sql : string;
}.

(** *** io/fs *)

Record DirEntry : Type := mkDirEntry {
  IsDir : bool;
  EName : string;
}.

(** An [fs.FS], read-only: [ReadDir] lists a directory, [Open] opens a
    path; an opened file is held as what [io.ReadAll] makes of it. *)
Record FS : Type := mkFS {
  ReadDir : string -> error + list DirEntry;
  Open : string -> error + (error + string);
}.

(** The errors [Migrate] returns: one constructor for each [fmt.Errorf]
    of the source, carrying the operands of its format string. *)
Inductive MigrateError : Type :=
| EReaddir (err : error)                    (* "migrate: readdir: %w" *)
| EBadName (name : string) (err : error)    (* "migrate: bad name %q: %w" *)
| EDuplicate (v : Z) (prev name : string)   (* "migrate: duplicate version %d: %q and %q" *)
| ERead (name : string) (err : error)       (* "migrate: read %q: %w" *)
| EBegin (err : error)                      (* "migrate: begin: %w" *)
| ECreateTable (err : error)                (* "migrate: create table: %w" *)
| ECurrentVersion (err : error)             (* "migrate: current version: %w" *)
| EExec (v : Z) (name : string) (err : error) (* "migrate: exec %d (%s): %w" *)
| ERecord (v : Z) (err : error)             (* "migrate: record %d: %w" *)
| ECommit (err : error).                    (* "migrate: commit: %w" *)

(** The version a name announces: [strconv.Atoi(strings.SplitN(name, "_", 2)[0])]. *)
Definition version_of (name : string) : error + Z :=
  Atoi (SplitN2_head name "_"%char).

(** The loop over the directory entries; [ms] and [seen] are the
    variables of the source. *)
Fixpoint discover (dir : FS) (entries : list DirEntry)
    (ms : list migration) (seen : gmap Z string)
    : MigrateError + list migration :=
  match entries with
  | [] => inr ms
  | e :: rest =>
    if IsDir e then discover dir rest ms seen
    else
      let name := EName e in
      if HasPrefix name "." then discover dir rest ms seen
      else
        match version_of name with
        | inl err => inl (EBadName name err)
        | inr v =>
          match seen !! v with
          | Some prev => inl (EDuplicate v prev name)
          | None =>
            let seen := <[v := name]> seen in
            match Open dir ("migrations/" +:+ name) with
            | inl err => inl (ERead name err)
            | inr f =>
              match f with
              | inl err => inl (ERead name err)
              | inr b => discover dir rest (ms ++ [mkMigration v name b])%list seen
              end
            end
          end
        end
  end.

(** [sort.Slice(ms, func(i, j) bool { return ms[i].v < ms[j].v })].
    [sort.Slice] does not promise stability; the versions that reach it
    are pairwise distinct, which leaves one sorted order. *)
Fixpoint insert_by_v (m : migration) (l : list migration) : list migration :=
  match l with
  | [] => [m]
  | x :: r => if v x <? v m then x :: insert_by_v m r else m :: x :: r
  end.

Definition sort_Slice (ms : list migration) : list migration :=
  foldr insert_by_v [] ms.

(** *** The datastore *)

(** The contents of the database file: the rows of the ledger table
    [schema_migrations] ([None] while the table does not exist) and
    everything else, [U]. *)
Record Store (U : Type) : Type := mkStore {
  ledger : option (list Z);
  user : U;
}.
Arguments mkStore {U}.
Arguments ledger {U}.
Arguments user {U}.

Definition createLedgerSQL : string :=
  "CREATE TABLE IF NOT EXISTS schema_migrations(version INTEGER PRIMARY KEY);".
Definition currentVersionSQL : string :=
  "SELECT COALESCE(MAX(version), 0) FROM schema_migrations".
Definition recordSQL : string :=
  "INSERT INTO schema_migrations(version) VALUES (?)".

(** [MAX(version)] with [COALESCE(.., 0)]. *)
Definition ledger_max (rows : list Z) : Z :=
  match rows with
  | [] => 0
  | x :: r => foldl Z.max x r
  end.

(** A call that reaches the driver, as the run's trace records it. *)
Inductive Call : Type :=
| CBegin
| CExec (q : string) (args : list Z)
| CQuery (q : string)
| CCommit
| CRollback.

(** The SQL engine and its surroundings.  [eng_exec] and [eng_query] give
    the meaning of every statement other than the three ledger statements
    above (a migration body may do anything to the store, the ledger
    included); [eng_fault k] is the failure, if any, that the environment
    (connectivity, deadline, disk) inflicts on the [k]-th driver call;
    [eng_now k] is the clock at that point.  The context is taken to stay
    live: a failure is one that a driver call meets.

    A text handed to SQLite is not bound to stay inside the transaction
    it runs in, nor to leave the ledger table as [Migrate] made it:
    - [eng_record x st] is what the ledger's [INSERT] of [x] does on the
      contents [st] once a body has changed it (a trigger on the table),
      [None] while it is the plain [INSERT];
    - [eng_persist q args st st'] is what the database durably holds
      after the text [q] took the contents from [st] to [st'], when a
      statement of the text has ended the transaction ([COMMIT] in a
      migration body) or the text runs after one has, [None] while the
      transaction is open;
    - [eng_refuse c st] is SQLite's answer to the driver's [COMMIT] or
      [ROLLBACK] on contents that are no longer inside a transaction
      ("cannot commit - no transaction is active"), [None] while the
      transaction is open. *)
Record Engine (U : Type) : Type := mkEngine {
  eng_exec : string -> list Z -> Store U -> Store U * option error;
  eng_query : string -> Store U -> error + Z;
  eng_fault : nat -> option error;
  eng_now : nat -> Z;
  eng_record : Z -> Store U -> option (Store U * option error);
  eng_persist : string -> list Z -> Store U -> Store U -> option (Store U);
  eng_refuse : Call -> Store U -> option error;
}.
Arguments mkEngine {U}.
Arguments eng_exec {U}.
Arguments eng_query {U}.
Arguments eng_fault {U}.
Arguments eng_now {U}.
Arguments eng_record {U}.
Arguments eng_persist {U}.
Arguments eng_refuse {U}.

(** A [*sql.DB] and the process around it: the committed contents of the
    database, the number of driver calls made, those calls with their
    results (oldest first), and the log. *)
Record World (U : Type) : Type := mkWorld {
  committed : Store U;
  clock : nat;
  calls : list (Call * option error);
  out : list Logger.Entry;
}.
Arguments mkWorld {U}.
Arguments committed {U}.
Arguments clock {U}.
Arguments calls {U}.
Arguments out {U}.

(** A [*sql.Tx]: the contents as the transaction sees them, and whether it
    has been committed or rolled back. *)
Record Tx (U : Type) : Type := mkTx {
  work : Store U;
  done : bool;
}.
Arguments mkTx {U}.
Arguments work {U}.
Arguments done {U}.

Section Engine.

Context {U : Type}.
Variable E : Engine U.

(** SQLite's reading of a statement, on the contents the connection
    sees.  The engine says first what a body has made of the ledger's
    [INSERT]; the plain one adds the row to the table. *)
Definition sql_exec (q : string) (args : list Z) (st : Store U)
    : Store U * option error :=
  if String.eqb q createLedgerSQL then
    match ledger st with
    | None => (mkStore (Some []) (user st), None)
    | Some _ => (st, None)
    end
  else if String.eqb q recordSQL then
    match args with
    | [x] =>
      match eng_record E x st with
      | Some r => r
      | None =>
        match ledger st with
        | Some rows =>
          if existsb (Z.eqb x) rows
          then (st, Some (errorString "UNIQUE constraint failed: schema_migrations.version"))
          else (mkStore (Some (rows ++ [x])%list) (user st), None)
        | None => (st, Some (errorString "no such table: schema_migrations"))
        end
      end
    | _ => (st, Some (errorString "sql: wrong number of arguments"))
    end
  else eng_exec E q args st.

Definition sql_query (q : string) (st : Store U) : error + Z :=
  if String.eqb q currentVersionSQL then
    match ledger st with
    | None => inl (errorString "no such table: schema_migrations")
    | Some rows => inr (ledger_max rows)
    end
  else eng_query E q st.

Definition tick (c : Call) (err : option error) (w : World U) : World U :=
  mkWorld (committed w) (S (clock w)) (calls w ++ [(c, err)])%list (out w).

Definition emit (e : Logger.Entry) (w : World U) : World U :=
  mkWorld (committed w) (clock w) (calls w) (out w ++ [e])%list.

(** [db.BeginTx(ctx, nil)] *)
Definition BeginTx (w : World U) : (error + Tx U) * World U :=
  match eng_fault E (clock w) with
  | Some e => (inl e, tick CBegin (Some e) w)
  | None => (inr (mkTx (committed w) false), tick CBegin None w)
  end.

(** The database durably holds [d]. *)
Definition settle (d : Store U) (w : World U) : World U :=
  mkWorld d (clock w) (calls w) (out w).

(** What a text that took the contents from [st] to [st'] leaves
    durably behind, if it did not stay inside the transaction. *)
Definition persist (q : string) (args : list Z) (st st' : Store U) (w : World U)
    : World U :=
  match eng_persist E q args st st' with
  | Some d => settle d w
  | None => w
  end.

(** [tx.ExecContext(ctx, q, args...)]: the whole text goes to SQLite,
    on the connection of the transaction. *)
Definition Tx_ExecContext (tx : Tx U) (q : string) (args : list Z) (w : World U)
    : option error * Tx U * World U :=
  if done tx then (Some ErrTxDone, tx, w)
  else
    match eng_fault E (clock w) with
    | Some e => (Some e, tx, tick (CExec q args) (Some e) w)
    | None =>
      let '(st, err) := sql_exec q args (work tx) in
      (err, mkTx st false,
       persist q args (work tx) st (tick (CExec q args) err w))
    end.

(** [tx.QueryRowContext(ctx, q).Scan(&n)] *)
Definition Tx_QueryRow_Scan (tx : Tx U) (q : string) (w : World U)
    : (error + Z) * World U :=
  if done tx then (inl ErrTxDone, w)
  else
    match eng_fault E (clock w) with
    | Some e => (inl e, tick (CQuery q) (Some e) w)
    | None =>
      match sql_query q (work tx) with
      | inl e => (inl e, tick (CQuery q) (Some e) w)
      | inr n => (inr n, tick (CQuery q) None w)
      end
    end.

(** The failure of the driver's [COMMIT] or [ROLLBACK], if any: one
    that the environment inflicts, or SQLite's refusal when the
    transaction is no longer open. *)
Definition close_error (c : Call) (tx : Tx U) (w : World U) : option error :=
  match eng_fault E (clock w) with
  | Some e => Some e
  | None => eng_refuse E c (work tx)
  end.

(** [tx.Commit()]: the contents of the transaction become the contents of
    the database, unless the commit fails. *)
Definition Tx_Commit (tx : Tx U) (w : World U) : option error * Tx U * World U :=
  if done tx then (Some ErrTxDone, tx, w)
  else
    match close_error CCommit tx w with
    | Some e => (Some e, mkTx (work tx) true, tick CCommit (Some e) w)
    | None =>
      let w1 := tick CCommit None w in
      (None, mkTx (work tx) true,
       mkWorld (work tx) (clock w1) (calls w1) (out w1))
    end.

(** [tx.Rollback()]: the contents of the transaction are dropped. *)
Definition Tx_Rollback (tx : Tx U) (w : World U) : option error * Tx U * World U :=
  if done tx then (Some ErrTxDone, tx, w)
  else
    let err := close_error CRollback tx w in
    (err, mkTx (work tx) true, tick CRollback err w).

(** The loop over the sorted units. *)
Fixpoint apply_pending (ms : list migration) (cur applied : Z)
    (tx : Tx U) (w : World U) : (MigrateError + Z) * Tx U * World U :=
  match ms with
  | [] => (inr applied, tx, w)
  | m :: rest =>
    if v m <=? cur then apply_pending rest cur applied tx w
    else
      let '(err, tx, w) := Tx_ExecContext tx (sql m) [] w in
      match err with
      | Some e => (inl (EExec (v m) (name m) e), tx, w)
      | None =>
        let '(err, tx, w) := Tx_ExecContext tx recordSQL [v m] w in
        match err with
        | Some e => (inl (ERecord (v m) e), tx, w)
        | None =>
          let w := emit (Logger.Info "db.migrate.applied"
                           [("version", Logger.FInt (v m));
                            ("name", Logger.FString (name m))]) w in
          apply_pending rest cur (applied + 1) tx w
        end
      end
  end.

(** From the [defer] to the last [return]. *)
Definition run_tx (ms : list migration) (start : Z) (tx : Tx U) (w : World U)
    : option MigrateError * Tx U * World U :=
  let '(err, tx, w) := Tx_ExecContext tx createLedgerSQL [] w in
  match err with
  | Some e => (Some (ECreateTable e), tx, w)
  | None =>
    let '(r, w) := Tx_QueryRow_Scan tx currentVersionSQL w in
    match r with
    | inl e => (Some (ECurrentVersion e), tx, w)
    | inr cur =>
      let '(r, tx, w) := apply_pending ms cur 0 tx w in
      match r with
      | inl e => (Some e, tx, w)
      | inr applied =>
        let '(err, tx, w) := Tx_Commit tx w in
        match err with
        | Some e => (Some (ECommit e), tx, w)
        | None =>
          let w :=
            if 0 <? applied
            then emit (Logger.Info "db.migrate.done"
                         [("applied", Logger.FInt applied);
                          ("dur", Logger.FDuration (eng_now E (clock w) - start))]) w
            else w in
          (None, tx, w)
        end
      end
    end
  end.

(** The deferred function. *)
Definition deferred_rollback (tx : Tx U) (w : World U) : World U :=
  let '(err, _, w) := Tx_Rollback tx w in
  match err with
  | Some e =>
    if decide (e = ErrTxDone) then w
    else emit (Logger.Error "db.migrate.rollback"
                 [("error", Logger.FString (Error e))]) w
  | None => w
  end.

Definition Migrate (dir : FS) (w : World U) : option MigrateError * World U :=
  let start := eng_now E (clock w) in
  match ReadDir dir "migrations" with
  | inl err => (Some (EReaddir err), w)
  | inr entries =>
    match discover dir entries [] ∅ with
    | inl e => (Some e, w)
    | inr ms =>
      let ms := sort_Slice ms in
      match BeginTx w with
      | (inl err, w) => (Some (EBegin err), w)
      | (inr tx, w) =>
        let '(r, tx, w) := run_tx ms start tx w in
        (r, deferred_rollback tx w)
      end
    end
  end.

(** *** What a run is expected to do *)

(** The units still to apply when the ledger stands at [cur]. *)
Definition pending (cur : Z) (ms : list migration) : list migration :=
  List.filter (fun m => cur <? v m) ms.

(** The current version of a datastore: the largest version in the
    ledger, 0 when the ledger is empty or not there yet. *)
Definition current_version (st : Store U) : Z :=
  match ledger st with
  | None => 0
  | Some rows => ledger_max rows
  end.

(** The driver calls that apply one unit: its body, then its record. *)
Definition unit_calls (m : migration) : list Call :=
  [CExec (sql m) []; CExec recordSQL [v m]].

Definition script (ms : list migration) : list Call := flat_map unit_calls ms.

(** The calls that open every transaction. *)
Definition prelude : list Call :=
  [CExec createLedgerSQL []; CQuery currentVersionSQL].

Definition ok (cs : list Call) : list (Call * option error) :=
  map (fun c => (c, None)) cs.

Definition applied_entry (m : migration) : Logger.Entry :=
  Logger.Info "db.migrate.applied"
    [("version", Logger.FInt (v m)); ("name", Logger.FString (name m))].

(** The store after the units [ms] have all been applied in order, if
    every statement succeeds. *)
Fixpoint apply_units (ms : list migration) (st : Store U) : option (Store U) :=
  match ms with
  | [] => Some st
  | m :: rest =>
    match sql_exec (sql m) [] st with
    | (st1, None) =>
      match sql_exec recordSQL [v m] st1 with
      | (st2, None) => apply_units rest st2
      | (_, Some _) => None
      end
    | (_, Some _) => None
    end
  end.

(** The world after more driver calls and more log entries. *)
Definition advance (w : World U) (tr : list (Call * option error))
    (logs : list Logger.Entry) : World U :=
  mkWorld (committed w) (clock w + length tr)%nat (calls w ++ tr)%list
          (out w ++ logs)%list.

(** The driver calls of a transaction over the sorted units [ms], begun
    on a store whose current version is [cur], against the error that
    [Migrate] returns: the calls made between [BeginTx] and the closing
    [Commit] or [Rollback]. *)
Inductive tx_shape (cur : Z) (ms : list migration)
    : option MigrateError -> list (Call * option error) -> Prop :=
| shape_create_failed err :
    tx_shape cur ms (Some (ECreateTable err))
      [(CExec createLedgerSQL [], Some err)]
| shape_query_failed err :
    tx_shape cur ms (Some (ECurrentVersion err))
      [(CExec createLedgerSQL [], None); (CQuery currentVersionSQL, Some err)]
| shape_exec_failed ran m rest err :
    pending cur ms = (ran ++ m :: rest)%list ->
    tx_shape cur ms (Some (EExec (v m) (name m) err))
      (ok (prelude ++ script ran) ++ [(CExec (sql m) [], Some err)])%list
| shape_record_failed ran m rest err :
    pending cur ms = (ran ++ m :: rest)%list ->
    tx_shape cur ms (Some (ERecord (v m) err))
      (ok (prelude ++ script ran)
       ++ [(CExec (sql m) [], None); (CExec recordSQL [v m], Some err)])%list
| shape_commit_failed err :
    tx_shape cur ms (Some (ECommit err))
      (ok (prelude ++ script (pending cur ms)) ++ [(CCommit, Some err)])%list
| shape_committed :
    tx_shape cur ms None
      (ok (prelude ++ script (pending cur ms) ++ [CCommit])).

End Engine.

(** The artifacts of a directory listing: what is left once
    sub-directories and hidden names are skipped. *)
Definition is_artifact (e : DirEntry) : bool :=
  negb (IsDir e) && negb (HasPrefix (EName e) ".").

Definition artifacts (entries : list DirEntry) : list DirEntry :=
  List.filter is_artifact entries.

(** The [seen] map once the units [ms] have been accepted. *)
Definition seen_of (ms : list migration) : gmap Z string :=
  foldl (fun s m => <[v m := name m]> s) ∅ ms.

(** The unit [m] is what discovery makes of the artifact [e]. *)
Definition unit_of (dir : FS) (m : migration) (e : DirEntry) : Prop :=
  name m = EName e
  /\ version_of (EName e) = inr (v m)
  /\ Open dir ("migrations/" +:+ EName e) = inr (inr (sql m)).

(** The order of [sort.Slice], and its strict form. *)
Definition by_version (a b : migration) : Prop := v a <= v b.
Definition by_version_strict (a b : migration) : Prop := v a < v b.

(** "An integer prefix followed by a separator", as the specification
    words the shape of a name: some text before a ["_"], and that text
    an integer. *)
Fixpoint has_separator (s : string) : bool :=
  match s with
  | EmptyString => false
  | String c t => Ascii.eqb c "_" || has_separator t
  end.

Definition integer_prefix_then_separator (name : string) : bool :=
  has_separator name
  && match version_of name with inl _ => false | inr _ => true end.

(** The underlying error an error of [Migrate] wraps, if any. *)
Definition cause (e : MigrateError) : option error :=
  match e with
  | EReaddir err | EBadName _ err | ERead _ err | EBegin err
  | ECreateTable err | ECurrentVersion err | EExec _ _ err
  | ERecord _ err | ECommit err => Some err
  | EDuplicate _ _ _ => None
  end.

(** The errors raised between [BeginTx] and [Commit]. *)
Definition step_error (e : MigrateError) : bool :=
  match e with
  | ECreateTable _ | ECurrentVersion _ | EExec _ _ _ | ERecord _ _ => true
  | _ => false
  end.

(** The entry that closes a run that applied something, and the entry
    for a rollback that failed. *)
Definition done_entry (applied dur : Z) : Logger.Entry :=
  Logger.Info "db.migrate.done"
    [("applied", Logger.FInt applied); ("dur", Logger.FDuration dur)].

Definition rollback_entry (e : error) : Logger.Entry :=
  Logger.Error "db.migrate.rollback" [("error", Logger.FString (Error e))].

(** What the deferred function logs for the outcome of [Rollback]. *)
Definition rollback_log (outcome : option error) : list Logger.Entry :=
  match outcome with
  | Some e => if decide (e = ErrTxDone) then [] else [rollback_entry e]
  | None => []
  end.

(** An engine none of whose texts ends the transaction it runs in: what
    a text does stays in the transaction, and the driver's [COMMIT] and
    [ROLLBACK] find it open. *)
Definition stays_in_tx {U} (E : Engine U) : Prop :=
  (forall q args st st', eng_persist E q args st st' = None)
  /\ (forall c st, eng_refuse E c st = None).

(** An engine on which the ledger's [INSERT] stays the plain one. *)
Definition plain_ledger {U} (E : Engine U) : Prop :=
  forall x st, eng_record E x st = None.

(** An engine whose statements, the three ledger statements apart,
    leave the ledger table alone: its rows, and what the ledger
    statements do to it. *)
Definition keeps_ledger {U} (E : Engine U) : Prop :=
  (forall q args st, ledger (fst (eng_exec E q args st)) = ledger st)
  /\ plain_ledger E.

(** The world [w'] is [w] after the driver calls [tr] and the log
    entries [logs]; the database durably holds what it held, unless a
    text has left the transaction. *)
Definition reaches {U} (E : Engine U) (w w' : World U)
    (tr : list (Call * option error)) (logs : list Logger.Entry) : Prop :=
  clock w' = (clock w + length tr)%nat
  /\ calls w' = (calls w ++ tr)%list
  /\ out w' = (out w ++ logs)%list
  /\ (stays_in_tx E -> committed w' = committed w).

End Migration.

(* ===================================================================== *)
(** ** internal/store: [WithTx] *)
(* ===================================================================== *)

Module store.
Import Migration.

Section Engine.

Context {U : Type}.
Variable E : Engine U.

(** What the callback [fn] does with the queries it is handed.
    [dal.New(tx)] binds them to the transaction, so [fn] reaches the
    database through statements on the transaction only: each one is
    run, [fn] looks at its outcome and goes on, until it returns an
    error or nil. *)
Inductive TxProg : Type :=
| Return (err : option error)
| Exec (q : string) (args : list Z) (k : option error -> TxProg)
| QueryRow (q : string) (k : error + Z -> TxProg).

Fixpoint run_fn (fn : TxProg) (tx : Tx U) (w : World U)
    : option error * Tx U * World U :=
  match fn with
  | Return err => (err, tx, w)
  | Exec q args k =>
    let '(err, tx, w) := Tx_ExecContext E tx q args w in
    run_fn (k err) tx w
  | QueryRow q k =>
    let '(r, w) := Tx_QueryRow_Scan E tx q w in
    run_fn (k r) tx w
  end.

(** The deferred function of [WithTx]. *)
Definition deferred_rollback (tx : Tx U) (w : World U) : World U :=
  let '(err, _, w) := Tx_Rollback E tx w in
  match err with
  | Some e =>
    if decide (e = ErrTxDone) then w
    else emit (Logger.Error "store.tx.rollback"
                 [("error", Logger.FString (Error e))]) w
  | None => w
  end.

Definition WithTx (fn : TxProg) (w : World U) : option error * World U :=
  match BeginTx E w with
  | (inl err, w) => (Some err, w)
  | (inr tx, w) =>
    let '(r, tx, w) :=
      let '(err, tx, w) := run_fn fn tx w in
      match err with
      | Some e => (Some e, tx, w)
      | None => Tx_Commit E tx w
      end in
    (r, deferred_rollback tx w)
  end.

(** The entry for a rollback that failed. *)
Definition rollback_entry (e : error) : Logger.Entry :=
  Logger.Error "store.tx.rollback" [("error", Logger.FString (Error e))].

(** A statement that [fn] ran, as the driver saw it. *)
Definition is_statement (c : Call * option error) : bool :=
  match fst c with
  | CExec _ _ | CQuery _ => true
  | _ => false
  end.

End Engine.

End store.

(* ===================================================================== *)
(** ** A reference engine and file system for concrete runs *)
(* ===================================================================== *)

Module Sample.
Import Migration.

(** A file system like [fstest.MapFS]: the files of [migrations/], in
    directory order, with their contents. *)
Fixpoint lookup_file (files : list (string * string)) (path : string)
    : error + (error + string) :=
  match files with
  | [] => inl (errorString "file does not exist")
  | (n, body) :: rest =>
    if String.eqb path ("migrations/" +:+ n) then inr (inr body)
    else lookup_file rest path
  end.

Definition MapFS (files : list (string * string)) : FS :=
  mkFS (fun d => if String.eqb d "migrations"
                 then inr (map (fun f => mkDirEntry false (fst f)) files)
                 else inl (errorString "file does not exist"))
       (lookup_file files).

(** An engine whose store keeps the statements it ran: a statement that
    starts with [INVALID] is a syntax error, any other one succeeds.  No
    text leaves the transaction or touches the ledger table. *)
Definition engine (faults : nat -> option error) : Engine (list string) :=
  mkEngine
    (fun q _ st =>
       if HasPrefix q "INVALID"
       then (st, Some (errorString "near INVALID: syntax error"))
       else (mkStore (ledger st) (user st ++ [q])%list, None))
    (fun _ _ => inl (errorString "no such table"))
    faults
    (fun k => Z.of_nat k)
    (fun _ _ => None)
    (fun _ _ _ _ => None)
    (fun _ _ => None).

Definition no_faults : nat -> option error := fun _ => None.

(** The [k]-th driver call fails. *)
Definition fault_at (k : nat) : nat -> option error :=
  fun i => if Nat.eqb i k then Some (errorString "disk I/O error") else None.

Definition fresh : World (list string) := mkWorld (mkStore None []) 0 [] [].

(** A driver connection like [fakeConn] of the tests, but with a [Begin]
    that would succeed: [ExecContext] and [QueryContext] take a fixed
    time and return a fixed error; the state of the driver side is the
    clock. *)
Definition fakeConn (execErr queryErr : option error) (execDur queryDur : Z)
    : @Trace.Conn Z unit unit unit unit unit unit :=
  Trace.mkConn
    (fun _ d => ((None, Some ErrSkip), d))
    (fun d => (None, d))
    (fun d => ((Some tt, None), d))
    None
    (Some (fun _ _ _ d => ((Some tt, execErr), d + execDur)))
    (Some (fun _ _ _ d => ((Some tt, queryErr), d + queryDur))).

Definition clock_now (d : Z) : Z := d.

Definition tracer_1ms_every3 : Trace.Tracer := Trace.mkTracer 1000000 true 3.

Definition conn3 (execErr : option error) (execDur : Z)
    : @Trace.tracedConn Z unit unit unit unit unit unit :=
  Trace.mkTracedConn (fakeConn execErr None execDur 0) (Some tracer_1ms_every3) 0.

Definition slow_call : Trace.LogCall :=
  Trace.mkLogCall "exec" "SELECT 1" [] 2000000 None.
Definition fast_call : Trace.LogCall :=
  Trace.mkLogCall "exec" "SELECT 1" [] 10 None.

Definition secret_args : list NamedValue :=
  [mkNamedValue "" 1 (VString "secret"); mkNamedValue "" 2 (VInt64 123)].

(** A call that failed quickly, a connection whose counter stands at
    seven, and one whose tracer has no threshold. *)
Definition failed_call : Trace.LogCall :=
  Trace.mkLogCall "exec" "SELECT 1" secret_args 10 (Some (errorString "boom")).

Definition conn3_at7 : @Trace.tracedConn Z unit unit unit unit unit unit :=
  Trace.mkTracedConn (fakeConn None None 0 0) (Some tracer_1ms_every3) 7.

Definition conn_no_threshold : @Trace.tracedConn Z unit unit unit unit unit unit :=
  Trace.mkTracedConn (fakeConn None None 0 0) (Some (Trace.mkTracer 0 true 1)) 0.

Definition two_units : FS :=
  MapFS [("001_init.sql", "CREATE TABLE users(id INTEGER PRIMARY KEY);");
         ("002_add_posts.sql", "CREATE TABLE posts(id INTEGER PRIMARY KEY);")].

Definition bad_second : FS :=
  MapFS [("001_init.sql", "CREATE TABLE users(id INTEGER PRIMARY KEY);");
         ("002_bad.sql", "INVALID SQL SYNTAX HERE;")].

Definition bad_first : FS :=
  MapFS [("001_bad.sql", "INVALID SQL SYNTAX HERE;");
         ("002_add_posts.sql", "CREATE TABLE posts(id INTEGER PRIMARY KEY);")].

Definition no_separator : FS :=
  MapFS [("42", "CREATE TABLE t(id INTEGER PRIMARY KEY);")].

Definition invalid_name : FS :=
  MapFS [("001_init.sql", "CREATE TABLE users(id INTEGER PRIMARY KEY);");
         ("abc_invalid.sql", "CREATE TABLE posts(id INTEGER PRIMARY KEY);")].

Definition duplicate_version : FS :=
  MapFS [("001_duplicate.sql", "CREATE TABLE posts(id INTEGER PRIMARY KEY);");
         ("001_init.sql", "CREATE TABLE users(id INTEGER PRIMARY KEY);")].

Definition bad_between_duplicates : FS :=
  MapFS [("001_a.sql", "CREATE TABLE a(id INTEGER PRIMARY KEY);");
         ("0x_b.sql", "CREATE TABLE b(id INTEGER PRIMARY KEY);");
         ("1_c.sql", "CREATE TABLE c(id INTEGER PRIMARY KEY);")].

(** The directory of [two_units] with a sub-directory, a hidden file
    and a directory with a name no version can be read from; the same
    directory listed backwards; and a listing that names a file that is
    not there. *)
Definition two_units_cluttered : FS :=
  mkFS (fun _ => inr [mkDirEntry true "old"; mkDirEntry false ".gitkeep";
                      mkDirEntry false "001_init.sql";
                      mkDirEntry true "not_a_version";
                      mkDirEntry false "002_add_posts.sql"])
       (Open two_units).

Definition two_units_reversed : FS :=
  mkFS (fun _ => inr [mkDirEntry false "002_add_posts.sql";
                      mkDirEntry false "001_init.sql"])
       (Open two_units).

Definition one_unit_gone : FS :=
  mkFS (fun _ => inr [mkDirEntry false "001_init.sql";
                      mkDirEntry false "003_gone.sql"])
       (Open two_units).

(** The same engine with SQLite's transaction control: a text that ends
    with [COMMIT;] ends the transaction, and from then on the connection
    commits every statement as it runs and has no transaction left for
    the driver to commit or roll back. *)
Definition committed_early (st : Store (list string)) : bool :=
  existsb (fun q => HasSuffix q "COMMIT;") (user st).

Definition engine_tc (faults : nat -> option error) : Engine (list string) :=
  mkEngine
    (eng_exec (engine faults))
    (eng_query (engine faults))
    faults
    (eng_now (engine faults))
    (fun _ _ => None)
    (fun _ _ _ st' => if committed_early st' then Some st' else None)
    (fun c st =>
       if committed_early st
       then Some (errorString
                    match c with
                    | CCommit => "cannot commit - no transaction is active"
                    | _ => "cannot rollback - no transaction is active"
                    end)
       else None).

Definition commit_in_body : FS :=
  MapFS [("001_init.sql", "CREATE TABLE users(id INTEGER PRIMARY KEY); COMMIT;");
         ("002_bad.sql", "INVALID SQL SYNTAX HERE;")].





(** The world a first run over [two_units] leaves. *)
Definition after_two_units : World (list string) :=
  snd (Migrate (engine no_faults) two_units fresh).

End Sample.

(* ===================================================================== *)
(** ** Properties of the Go library model *)
(* ===================================================================== *)

Module GoFacts.

Lemma first_ascii b : first b = FAscii -> b < 0x80.
Proof.
  unfold first. repeat (case_match; try discriminate). intros _. lia.
Qed.

Lemma first_invalid b : first b = FInvalid -> 0x80 <= b.
Proof.
  unfold first. repeat (case_match; try discriminate); intros _; lia.
Qed.

Lemma first_lead b sz lo hi :
  first b = FLead sz lo hi -> 0x80 <= b /\ 0x80 <= lo /\ (2 <= sz <= 4)%nat.
Proof.
  unfold first, locb. repeat (case_match; try discriminate);
    intros [= <- <- <-]; lia.
Qed.

Lemma low_outside b lo hi : b < 0x80 -> 0x80 <= lo -> (b <? lo) || (hi <? b) = true.
Proof. intros. apply orb_true_iff. left. apply Z.ltb_lt. lia. Qed.

Lemma inside_high b lo hi : 0x80 <= lo -> (b <? lo) || (hi <? b) = false -> 0x80 <= b.
Proof. intros Hlo [H1 _]%orb_false_iff. apply Z.ltb_ge in H1. lia. Qed.

Lemma cont_high b : cont b = true -> 0x80 <= b.
Proof. unfold cont, locb. intros [H _]%andb_true_iff. by apply Z.leb_le in H. Qed.

Lemma substring_0_0 t : substring 0 0 t = EmptyString.
Proof. by destruct t. Qed.

Lemma substring_0_S m c t :
  substring 0 (S m) (String c t) = String c (substring 0 m t).
Proof. reflexivity. Qed.

(** What a decoded rune looks like: an ASCII byte standing for itself, or
    one to four bytes none of which is ASCII. *)
Lemma decode_shape c t r w :
  DecodeRuneInString (String c t) = (r, w) ->
  (byte_of c < 0x80 /\ r = byte_of c /\ w = 1%nat)
  \/ (0x80 <= byte_of c /\ (1 <= w)%nat
      /\ Trace.string_forall high_byte (substring 0 w (String c t)) = true).
Proof.
  unfold DecodeRuneInString.
  destruct (first (byte_of c)) as [| |sz lo hi] eqn:Hf.
  { intros [= <- <-]. left. by apply first_ascii in Hf. }
  { intros [= <- <-]. right. apply first_invalid in Hf.
    split; [done|]. split; [done|].
    rewrite substring_0_S, substring_0_0. simpl. unfold high_byte.
    rewrite andb_true_r. by apply Z.leb_le. }
  apply first_lead in Hf as (Hb & Hlo & Hsz).
  assert (Hc : high_byte c = true) by (by apply Z.leb_le).
  assert (H1 : forall t', Trace.string_forall high_byte (substring 0 1 (String c t')) = true).
  { intros t'. rewrite substring_0_S, substring_0_0. simpl. by rewrite Hc. }
  destruct t as [|c1 t1]; [intros [= <- <-]; right; eauto|].
  destruct (_ || _) eqn:H1b; [intros [= <- <-]; right; eauto|].
  apply inside_high in H1b; [|done].
  assert (Hc1 : high_byte c1 = true) by (by apply Z.leb_le).
  destruct (sz <=? 2)%nat.
  { intros [= <- <-]. right. split; [done|]. split; [lia|].
    rewrite !substring_0_S, substring_0_0. simpl. by rewrite Hc, Hc1. }
  destruct t1 as [|c2 t2]; [intros [= <- <-]; right; eauto|].
  destruct (cont (byte_of c2)) eqn:H2b; simpl negb; cbv iota;
    [|intros [= <- <-]; right; eauto].
  apply cont_high in H2b.
  assert (Hc2 : high_byte c2 = true) by (by apply Z.leb_le).
  destruct (sz <=? 3)%nat.
  { intros [= <- <-]. right. split; [done|]. split; [lia|].
    rewrite !substring_0_S, substring_0_0. simpl. by rewrite Hc, Hc1, Hc2. }
  destruct t2 as [|c3 t3]; [intros [= <- <-]; right; eauto|].
  destruct (cont (byte_of c3)) eqn:H3b; simpl negb; cbv iota;
    [|intros [= <- <-]; right; eauto].
  apply cont_high in H3b.
  assert (Hc3 : high_byte c3 = true) by (by apply Z.leb_le).
  intros [= <- <-]. right. split; [done|]. split; [lia|].
  rewrite !substring_0_S, substring_0_0. simpl. by rewrite Hc, Hc1, Hc2, Hc3.
Qed.

(** *** Replacing newlines by spaces, seen by the decoder *)

Lemma unnl_cons c t :
  unnl (String c t) = String (if Ascii.eqb c nl then " "%char else c) (unnl t).
Proof. simpl. by destruct (Ascii.eqb c nl). Qed.

Lemma unnl_high s : Trace.string_forall high_byte s = true -> unnl s = s.
Proof.
  induction s as [|c t IH]; [done|].
  simpl Trace.string_forall. intros [Hc Ht]%andb_true_iff.
  rewrite unnl_cons, IH by done.
  destruct (Ascii.eqb_spec c nl) as [->|]; [discriminate Hc|done].
Qed.

Lemma byte_nl : byte_of nl = 0x0A.
Proof. reflexivity. Qed.

Lemma byte_sp : byte_of " " = 0x20.
Proof. reflexivity. Qed.

(** The decoder sees the same widths, and the same runes but for the
    newline itself. *)
Lemma decode_unnl c t :
  DecodeRuneInString (unnl (String c t)) =
  (if Ascii.eqb c nl then 0x20 else fst (DecodeRuneInString (String c t)),
   snd (DecodeRuneInString (String c t))).
Proof.
  rewrite unnl_cons.
  destruct (Ascii.eqb_spec c nl) as [->|Hc]; [reflexivity|].
  unfold DecodeRuneInString.
  destruct (first (byte_of c)) as [| |sz lo hi] eqn:Hf; [done|done|].
  apply first_lead in Hf as (Hb & Hlo & Hsz).
  destruct t as [|c1 t1]; [done|]. rewrite unnl_cons.
  destruct (Ascii.eqb_spec c1 nl) as [->|Hc1].
  { rewrite byte_nl, byte_sp, !low_outside by lia. done. }
  destruct (_ || _); [done|].
  destruct (sz <=? 2)%nat; [done|].
  destruct t1 as [|c2 t2]; [done|]. rewrite unnl_cons.
  destruct (Ascii.eqb_spec c2 nl) as [->|Hc2]; [done|].
  destruct (cont (byte_of c2)); simpl negb; cbv iota; [|done].
  destruct (sz <=? 3)%nat; [done|].
  destruct t2 as [|c3 t3]; [done|]. rewrite unnl_cons.
  destruct (Ascii.eqb_spec c3 nl) as [->|Hc3]; [done|].
  by destruct (cont (byte_of c3)).
Qed.

Lemma IsSpace_nl : IsSpace 0x0A = true.
Proof. reflexivity. Qed.

Lemma IsSpace_sp : IsSpace 0x20 = true.
Proof. reflexivity. Qed.

Lemma substring_unnl w s : substring 0 w (unnl s) = unnl (substring 0 w s).
Proof.
  revert s. induction w as [|w IH]; intros s.
  - rewrite !substring_0_0. done.
  - destruct s as [|c t]; [done|].
    rewrite unnl_cons, !substring_0_S, unnl_cons. by rewrite IH.
Qed.

(** [strings.Fields] reads newlines as white space already: replacing
    them by spaces first changes nothing. *)
Lemma FieldsFunc_loop_unnl s :
  forall k start,
    FieldsFunc_loop IsSpace (range_from k (unnl s)) start =
    FieldsFunc_loop IsSpace (range_from k s) start.
Proof.
  induction s as [|c t IH]; intros k start; [done|].
  destruct k as [|k].
  2:{ rewrite unnl_cons. simpl. apply IH. }
  assert (Hr : forall s', range_from 0 (String c s') =
            let '(r, w) := DecodeRuneInString (String c s') in
            (r, substring 0 w (String c s')) :: range_from (w - 1) s') by done.
  rewrite Hr.
  assert (Hr' : range_from 0 (unnl (String c t)) =
            let '(r, w) := DecodeRuneInString (unnl (String c t)) in
            (r, substring 0 w (unnl (String c t))) :: range_from (w - 1) (unnl t)).
  { rewrite unnl_cons. done. }
  rewrite Hr', decode_unnl.
  destruct (DecodeRuneInString (String c t)) as [r w] eqn:Hdec.
  cbn [fst snd FieldsFunc_loop].
  destruct (Ascii.eqb_spec c nl) as [->|Hc].
  - (* a newline: white space before and after *)
    assert (r = 0x0A) as -> by (by injection Hdec as <- _).
    rewrite IsSpace_nl, IsSpace_sp. by rewrite !IH.
  - destruct (IsSpace r) eqn:Hsp; [by rewrite !IH|].
    rewrite IH. do 3 f_equal.
    assert (Hsub : substring 0 w (unnl (String c t)) = substring 0 w (String c t)).
    { rewrite substring_unnl.
      destruct (decode_shape c t r w Hdec) as [(_ & _ & ->)|(_ & _ & Hhigh)].
      - rewrite substring_0_S, substring_0_0, unnl_cons.
        by destruct (Ascii.eqb_spec c nl).
      - by apply unnl_high. }
    by rewrite Hsub.
Qed.

Lemma Fields_unnl s : Fields (unnl s) = Fields s.
Proof. apply FieldsFunc_loop_unnl. Qed.

End GoFacts.

Module CompactFacts.
Import Trace GoFacts.

Lemma drop_trailing_spaces_snoc rs u :
  drop_trailing_spaces (rs ++ [u]) =
  if is_space_rune u then drop_trailing_spaces rs else (rs ++ [u])%list.
Proof.
  induction rs as [|x rs IH]; simpl.
  - by destruct (is_space_rune u).
  - rewrite IH. destruct (is_space_rune u); [done|].
    by destruct rs.
Qed.

Lemma rev_drop_spaces_rev rs :
  rev (drop_spaces (rev rs)) = drop_trailing_spaces rs.
Proof.
  induction rs as [|u rs IH] using rev_ind; [done|].
  rewrite rev_unit, drop_trailing_spaces_snoc. simpl.
  destruct (is_space_rune u); [done|].
  simpl. by rewrite rev_involutive.
Qed.

Lemma is_space_space_rune : is_space_rune space_rune = true.
Proof. reflexivity. Qed.

(** After a run has been opened, collapsing drops the rest of it. *)
Lemma drop_spaces_collapse rs :
  drop_spaces (collapse_runs rs false) = collapse_runs rs true.
Proof.
  assert (Hrun : forall l, drop_spaces (collapse_runs l true) = collapse_runs l true).
  { induction l as [|x l IH]; [done|]. simpl.
    destruct (is_space_rune x) eqn:Hx; [done|]. simpl. by rewrite Hx. }
  destruct rs as [|u rs]; [done|]. simpl.
  destruct (is_space_rune u) eqn:Hu.
  - change (drop_spaces (space_rune :: ?l)) with (drop_spaces l). apply Hrun.
  - simpl. by rewrite Hu.
Qed.

Lemma trim_collapse rs :
  trim_runes (collapse_runs rs false) =
  drop_trailing_spaces (collapse_runs rs true).
Proof. unfold trim_runes. by rewrite drop_spaces_collapse, rev_drop_spaces_rev. Qed.

Lemma Join_cons x l :
  l <> [] -> Join (x :: l) " " = x +:+ " " +:+ Join l " ".
Proof. by destruct l. Qed.

Lemma append_cons x (a b : string) : String x a +:+ b = String x (a +:+ b).
Proof. reflexivity. Qed.

Lemma append_assoc (a b c : string) : (a +:+ b) +:+ c = a +:+ (b +:+ c).
Proof. induction a as [|x a IH]; [done|]. by rewrite !append_cons, IH. Qed.

Lemma append_empty_r (a : string) : a +:+ EmptyString = a.
Proof. induction a as [|x a IH]; [done|]. by rewrite append_cons, IH. Qed.

Lemma FieldsFunc_loop_some_nonempty f rs fld :
  FieldsFunc_loop f rs (Some fld) <> [].
Proof.
  revert fld. induction rs as [|[r bs] rs IH]; intros fld; simpl; [done|].
  destruct (f r); [done|apply IH].
Qed.

Lemma drop_trailing_cons_space l :
  drop_trailing_spaces (space_rune :: l) =
  match drop_trailing_spaces l with [] => [] | l' => space_rune :: l' end.
Proof. reflexivity. Qed.

Lemma drop_trailing_cons_word u l :
  is_space_rune u = false ->
  drop_trailing_spaces (u :: l) = u :: drop_trailing_spaces l.
Proof. intros Hu. simpl. rewrite Hu. by destruct (drop_trailing_spaces l). Qed.

Lemma collapse_cons_space u rs b :
  is_space_rune u = true ->
  collapse_runs (u :: rs) b =
  if b then collapse_runs rs true else space_rune :: collapse_runs rs true.
Proof. intros Hu. simpl. by rewrite Hu. Qed.

Lemma collapse_cons_word u rs b :
  is_space_rune u = false ->
  collapse_runs (u :: rs) b = u :: collapse_runs rs false.
Proof. intros Hu. simpl. by rewrite Hu. Qed.

Lemma bytes_of_cons u l : bytes_of (u :: l) = snd u +:+ bytes_of l.
Proof. reflexivity. Qed.

(** The fields joined by single spaces are the collapsed and trimmed
    runes: outside a field ([None]) and inside one ([Some fld]). *)
Lemma Join_FieldsFunc_loop rs :
  (Join (FieldsFunc_loop IsSpace rs None) " " =
     bytes_of (drop_trailing_spaces (collapse_runs rs true))
   /\ (FieldsFunc_loop IsSpace rs None = [] <->
       drop_trailing_spaces (collapse_runs rs true) = []))
  /\ (forall fld,
        Join (FieldsFunc_loop IsSpace rs (Some fld)) " " =
        fld +:+ bytes_of (drop_trailing_spaces (collapse_runs rs false))).
Proof.
  induction rs as [|[r bs] rs [[IHn IHe] IHs]].
  - split; [done|]. intros fld. simpl. by rewrite append_empty_r.
  - destruct (IsSpace r) eqn:Hr.
    + assert (Hu : is_space_rune (r, bs) = true) by done.
      rewrite !collapse_cons_space by done.
      cbn [FieldsFunc_loop]. rewrite Hr.
      split; [done|]. intros fld.
      rewrite drop_trailing_cons_space.
      destruct (drop_trailing_spaces (collapse_runs rs true)) as [|y ys] eqn:Hd.
      * destruct IHe as [_ ->]; [|done]. simpl. by rewrite append_empty_r.
      * rewrite Join_cons by (intros He; by apply IHe in He).
        rewrite IHn. done.
    + assert (Hu : is_space_rune (r, bs) = false) by done.
      rewrite !collapse_cons_word, !drop_trailing_cons_word by done.
      cbn [FieldsFunc_loop]. rewrite Hr.
      split; [split|].
      * by rewrite IHs.
      * split; [|done]. intros He. by apply FieldsFunc_loop_some_nonempty in He.
      * intros fld. by rewrite IHs, append_assoc.
Qed.

(** [compact] is the normalization of the specification. *)
Lemma compact_normalize s : compact s = normalize s.
Proof.
  unfold compact, normalize. rewrite Fields_unnl, trim_collapse.
  apply Join_FieldsFunc_loop.
Qed.

(** *** No line break survives *)

Lemma string_forall_app p (a b : string) :
  string_forall p (a +:+ b) = string_forall p a && string_forall p b.
Proof.
  induction a as [|x a IH]; [done|].
  rewrite append_cons. simpl. by rewrite IH, andb_assoc.
Qed.

Lemma string_forall_impl (p q : ascii -> bool) s :
  (forall c, p c = true -> q c = true) ->
  string_forall p s = true -> string_forall q s = true.
Proof.
  intros Hpq. induction s as [|x s IH]; [done|]. simpl.
  intros [Hx Hs]%andb_true_iff. by rewrite (Hpq x Hx), IH.
Qed.

Lemma line_breaking_space c : line_breaking c = true -> IsSpace (byte_of c) = true.
Proof.
  unfold line_breaking. intros [H1 H2]%andb_true_iff.
  apply Z.leb_le in H1, H2.
  assert (Hb : byte_of c = 0x09 \/ byte_of c = 0x0A \/ byte_of c = 0x0B
               \/ byte_of c = 0x0C \/ byte_of c = 0x0D) by lia.
  destruct Hb as [-> | [-> | [-> | [-> | ->]]]]; reflexivity.
Qed.

Lemma high_no_break c : high_byte c = true -> no_break c = true.
Proof.
  unfold high_byte, no_break, line_breaking. intros H%Z.leb_le.
  apply negb_true_iff, andb_false_iff. right. apply Z.leb_gt. lia.
Qed.

(** A rune that is not white space is written without any line break. *)
Lemma range_words_clean s :
  forall k, Forall (fun u => is_space_rune u = false -> clean (snd u)) (range_from k s).
Proof.
  induction s as [|c t IH]; intros k; [by constructor|].
  destruct k as [|k]; [|apply IH].
  change (range_from 0 (String c t)) with
    (let '(r, w) := DecodeRuneInString (String c t) in
     (r, substring 0 w (String c t)) :: range_from (w - 1) t).
  destruct (DecodeRuneInString (String c t)) as [r w] eqn:Hdec.
  constructor; [|apply IH].
  unfold is_space_rune, clean. cbn [fst snd]. intros Hsp.
  destruct (decode_shape c t r w Hdec) as [(_ & -> & ->)|(_ & _ & Hhigh)].
  - rewrite substring_0_S, substring_0_0. simpl. rewrite andb_true_r.
    unfold no_break. destruct (line_breaking c) eqn:Hlb; [|done].
    apply line_breaking_space in Hlb. congruence.
  - eapply string_forall_impl; [|exact Hhigh]. apply high_no_break.
Qed.

Lemma collapse_clean rs b :
  Forall (fun u => is_space_rune u = false -> clean (snd u)) rs ->
  Forall (fun u => clean (snd u)) (collapse_runs rs b).
Proof.
  intros H. revert b. induction H as [|u rs Hu _ IH]; intros b; [by constructor|].
  simpl. destruct (is_space_rune u) eqn:Hsp.
  - destruct b; [apply IH|]. constructor; [done|apply IH].
  - constructor; [by apply Hu|apply IH].
Qed.

Lemma drop_trailing_clean rs :
  Forall (fun u => clean (snd u)) rs ->
  Forall (fun u => clean (snd u)) (drop_trailing_spaces rs).
Proof.
  induction 1 as [|u rs Hu _ IH]; [by constructor|]. simpl.
  destruct (drop_trailing_spaces rs).
  - destruct (is_space_rune u); by repeat constructor.
  - by constructor.
Qed.

Lemma bytes_of_clean rs :
  Forall (fun u => clean (snd u)) rs -> clean (bytes_of rs).
Proof.
  induction 1 as [|u rs Hu _ IH]; [done|].
  unfold clean in *. rewrite bytes_of_cons, string_forall_app. by rewrite Hu, IH.
Qed.

(** The cases of [TestCompact], and one with a no-break space (U+00A0)
    and an ideographic space (U+3000). *)
Example compact_single_line : compact "SELECT * FROM users" = "SELECT * FROM users".
Proof. reflexivity. Qed.

Example compact_multiline :
  compact ("SELECT *" +:+ String nl "FROM users" +:+ String nl "WHERE id = 1")
  = "SELECT * FROM users WHERE id = 1".
Proof. reflexivity. Qed.

Example compact_extra_spaces :
  compact "SELECT   *   FROM    users" = "SELECT * FROM users".
Proof. reflexivity. Qed.

Example compact_tabs_and_newlines :
  compact ("SELECT" +:+ String "009" "*" +:+ String nl "  FROM"
           +:+ String nl (String "009" "users"))
  = "SELECT * FROM users".
Proof. reflexivity. Qed.

Example compact_unicode_spaces :
  compact ("a" +:+ String "194" (String "160" "b")
           +:+ String "227" (String "128" (String "128" "c")))
  = "a b c".
Proof. reflexivity. Qed.

Lemma compact_clean s : clean (compact s).
Proof.
  rewrite compact_normalize. unfold normalize. rewrite trim_collapse.
  apply bytes_of_clean, drop_trailing_clean, collapse_clean, range_words_clean.
Qed.

Section Driver.

Context {D Result Rows DTx Stmt Ctx TxOptions : Type}.

(** C9.  Every entry that [log] emits for a query [q] shows, under
    ["sql"], [compact q]; and [compact q] is the normalization of [q] as
    the specification words it (every run of white space, newlines and
    tabs included, collapsed to one space, and the ends trimmed), a text
    in which no tab, newline, vertical tab, form feed or carriage return
    is left: a single line. *)
Theorem query_text_is_normalized
    (c : @tracedConn D Result Rows DTx Stmt Ctx TxOptions)
    (kind q : string) (args : list NamedValue) (dur : Z)
    (err : option error) (out : list Logger.Entry) :
  (exists c1 new,
     log c kind q args dur err out = Some (c1, (out ++ new)%list)
     /\ forall en, In en new ->
          Logger.field "sql" (Logger.kv en) = Some (Logger.FString (compact q)))
  /\ compact q = normalize q
  /\ string_forall no_break (compact q) = true.
Proof.
  split; [|split; [apply compact_normalize | apply compact_clean]].
  unfold log, sampled.
  destruct (t c) as [tr|].
  2:{ exists c, []. rewrite app_nil_r. by split. }
  destruct err as [e|].
  { eexists c, [_]. split; [done|]. intros en [<-|[]]. done. }
  destruct (_ || _).
  { exists c, []. rewrite app_nil_r. by split. }
  destruct (SampleEvery tr <=? 1).
  { eexists c, [_]. split; [done|]. intros en [<-|[]]. done. }
  destruct (_ =? 0).
  - eexists _, [_]. split; [done|]. intros en [<-|[]]. done.
  - eexists _, []. rewrite app_nil_r. by split.
Qed.

End Driver.

End CompactFacts.

(* ===================================================================== *)
(** ** Properties of the tracer *)
(* ===================================================================== *)

Module TraceFacts.
Import Trace.

(** One more sampling check moves the quotient by one exactly when the
    new count is a multiple of the period. *)
Lemma div_succ_step (k p : Z) :
  0 <= k -> 1 < p ->
  (k + 1) / p - k / p = if (k + 1) mod p =? 0 then 1 else 0.
Proof.
  intros Hk Hp.
  destruct (Z.eqb_spec ((k + 1) mod p) 0) as [Hz|Hz];
    Z.div_mod_to_equations; nia.
Qed.

Section Driver.

Context {D Result Rows DTx Stmt Ctx TxOptions : Type}.
Variable now : D -> Z.

Abbreviation Conn := (@Conn D Result Rows DTx Stmt Ctx TxOptions).
Abbreviation tracedConn := (@tracedConn D Result Rows DTx Stmt Ctx TxOptions).

(** [log] never panics, and touches nothing of the connection but the
    counter. *)
Lemma log_total (c : tracedConn) kind q args dur err out :
  exists c1 out1,
    log c kind q args dur err out = Some (c1, out1)
    /\ base c1 = base c /\ t c1 = t c.
Proof.
  unfold log, sampled.
  destruct (t c) as [tr|] eqn:Ht; [|by eauto].
  destruct err as [e|]; [by eauto|].
  destruct (_ || _); [by eauto|].
  destruct (SampleEvery tr <=? 1); [by eauto|].
  destruct (_ =? 0); eauto.
Qed.



Lemma slow_count_app out1 out2 :
  slow_count (out1 ++ out2) = slow_count out1 + slow_count out2.
Proof. unfold slow_count. rewrite List.filter_app, length_app. lia. Qed.

Lemma qualifying_count_cons tr lc lcs :
  qualifying_count tr (lc :: lcs) =
  (if qualifying tr lc then 1 else 0) + qualifying_count tr lcs.
Proof.
  unfold qualifying_count. simpl. destruct (qualifying tr lc); simpl; lia.
Qed.

Lemma log_step (tr : Tracer) (c : tracedConn) kind q args dur err out :
  let lc := mkLogCall kind q args dur err in
  let k := if qualifying tr lc then 1 else 0 in
  t c = Some tr ->
  0 <= n c ->
  n c + k < 2 ^ 64 ->
  exists c1 out1,
    log c kind q args dur err out = Some (c1, out1)
    /\ t c1 = Some tr /\ base c1 = base c
    /\ (if SampleEvery tr <=? 1
        then n c1 = n c /\ slow_count out1 = slow_count out + k
        else n c1 = n c + k
             /\ slow_count out1 =
                slow_count out + (n c1 / SampleEvery tr - n c / SampleEvery tr)).
Proof.
  intros lc k Ht Hn Hlt. subst k lc. unfold qualifying in *. simpl in *.
  unfold log. rewrite Ht.
  destruct err as [e|].
  { (* the call failed: an error entry and no sampling check *)
    eexists _, _. split; [done|]. do 2 (split; [done|]).
    rewrite slow_count_app. change (slow_count [_]) with 0.
    destruct (_ <=? 1); split; lia. }
  destruct (Z.leb_spec (SlowThresh tr) 0) as [Hoff|Hon]; simpl.
  { replace (0 <? SlowThresh tr) with false by (symmetry; apply Z.ltb_ge; lia).
    simpl. eexists _, _. split; [done|]. do 2 (split; [done|]).
    destruct (_ <=? 1); split; lia. }
  replace (0 <? SlowThresh tr) with true in * by (symmetry; apply Z.ltb_lt; lia).
  simpl in *.
  destruct (Z.ltb_spec dur (SlowThresh tr)) as [Hfast|Hslow].
  { replace (SlowThresh tr <=? dur) with false by (symmetry; apply Z.leb_gt; lia).
    eexists _, _. split; [done|]. do 2 (split; [done|]).
    destruct (_ <=? 1); split; lia. }
  (* a qualifying event: the sampling check runs *)
  replace (SlowThresh tr <=? dur) with true in * by (symmetry; apply Z.leb_le; lia).
  unfold sampled. rewrite Ht.
  destruct (Z.leb_spec (SampleEvery tr) 1) as [Hall|Hper].
  { eexists _, _. split; [done|]. do 2 (split; [done|]).
    rewrite slow_count_app. change (slow_count [_]) with 1. lia. }
  pose proof (div_succ_step (n c) (SampleEvery tr) Hn Hper) as Hstep.
  cbn [n].
  rewrite (Z.mod_small (n c + 1) (2 ^ 64)) by lia.
  destruct ((n c + 1) mod SampleEvery tr =? 0).
  - eexists _, _. split; [done|]. do 2 (split; [done|]). cbn [n].
    rewrite slow_count_app. change (slow_count [_]) with 1. lia.
  - eexists _, _. split; [done|]. do 2 (split; [done|]). cbn [n]. lia.
Qed.

Lemma log_all_counts (tr : Tracer) (lcs : list LogCall) :
  forall (c : tracedConn) (out : list Logger.Entry),
    t c = Some tr ->
    0 <= n c ->
    n c + qualifying_count tr lcs < 2 ^ 64 ->
    exists c1 out1,
      log_all c lcs out = Some (c1, out1)
      /\ t c1 = Some tr /\ base c1 = base c
      /\ (if SampleEvery tr <=? 1
          then n c1 = n c
               /\ slow_count out1 = slow_count out + qualifying_count tr lcs
          else n c1 = n c + qualifying_count tr lcs
               /\ slow_count out1 =
                  slow_count out + (n c1 / SampleEvery tr - n c / SampleEvery tr)).
Proof.
  induction lcs as [|lc lcs IH]; intros c out Ht Hn Hlt.
  - exists c, out. simpl. do 3 (split; [done|]).
    unfold qualifying_count; simpl. destruct (_ <=? 1); split; lia.
  - rewrite qualifying_count_cons in *.
    assert (Hq : 0 <= qualifying_count tr lcs) by (unfold qualifying_count; lia).
    destruct lc as [kind q args dur err].
    destruct (log_step tr c kind q args dur err out Ht Hn)
      as (c1 & out1 & Hlog & Ht1 & Hb1 & Hc1).
    { destruct (qualifying tr _); lia. }
    simpl. rewrite Hlog.
    destruct (IH c1 out1 Ht1) as (c2 & out2 & Hrun & Ht2 & Hb2 & Hc2).
    { destruct (SampleEvery tr <=? 1), (qualifying tr _); lia. }
    { destruct (SampleEvery tr <=? 1), (qualifying tr _); lia. }
    exists c2, out2. split; [done|]. split; [done|]. split; [congruence|].
    destruct (SampleEvery tr <=? 1); split; lia.
Qed.

(** A connection comes out of [Open] with the driver's tracer and a
    counter at zero; an error of the wrapped driver comes out as it is. *)
Lemma Open_fresh (d : @tracedDriver D Result Rows DTx Stmt Ctx TxOptions) name env :
  match drv_base d name env with
  | (inl err, env1) => Open d name env = (inl err, env1)
  | (inr c, env1) =>
    exists tc, Open d name env = (inr tc, env1)
               /\ base tc = c /\ t tc = drv_t d /\ n tc = 0
  end.
Proof.
  unfold Open. destruct (drv_base d name env) as [[err|c] env1]; [done|].
  by eexists.
Qed.

(** C3.  On a connection whose driver supports the context-aware call,
    [ExecContext] and [QueryContext] return exactly the result (or rows)
    and exactly the error of the driver's own call, leave the driver
    side as that call left it, and never panic: the instrumentation
    alters, suppresses or replaces nothing, and fails nothing the driver
    succeeded on. *)
Theorem traced_calls_return_driver_outcome
    (c : tracedConn) (ctx : Ctx) (q : string) (args : list NamedValue)
    (env : D) (out : list Logger.Entry) :
  (forall ce, conn_ExecContext (base c) = Some ce ->
     exists r, ExecContext now c ctx q args env out = Some r
       /\ (ret_val r, ret_err r, env' r) = ce ctx q args env
       /\ base (conn' r) = base c /\ t (conn' r) = t c)
  /\ (forall cq, conn_QueryContext (base c) = Some cq ->
     exists r, QueryContext now c ctx q args env out = Some r
       /\ (ret_val r, ret_err r, env' r) = cq ctx q args env
       /\ base (conn' r) = base c /\ t (conn' r) = t c).
Proof.
  split.
  - intros ce Hce. unfold ExecContext. rewrite Hce.
    destruct (ce ctx q args env) as [[res err] env1].
    destruct (log_total c "exec" q args (now env1 - now env) err out)
      as (c1 & out1 & Hlog & Hb & Ht).
    rewrite Hlog. by eexists.
  - intros cq Hcq. unfold QueryContext. rewrite Hcq.
    destruct (cq ctx q args env) as [[rows err] env1].
    destruct (log_total c "query" q args (now env1 - now env) err out)
      as (c1 & out1 & Hlog & Hb & Ht).
    rewrite Hlog. by eexists.
Qed.

(** C4.  On one connection, fresh from [Open] (counter 0), whose tracer
    has [SampleEvery = N]: after any run of calls of which [K] qualify
    (success, threshold enabled and reached), with [K] below the range of
    the 64-bit counter, the run has emitted [K] slow-query warnings when
    [N <= 1], and [K / N] (rounded down) when [N > 1]; in the latter case
    the counter has been incremented once per sampling check, so it
    stands at [K]. *)
Theorem sampling_emits_one_in_N
    (c : tracedConn) (tr : Tracer) (lcs : list LogCall) :
  t c = Some tr ->
  n c = 0 ->
  qualifying_count tr lcs < 2 ^ 64 ->
  exists c1 out1,
    log_all c lcs [] = Some (c1, out1)
    /\ slow_count out1 =
       (if SampleEvery tr <=? 1 then qualifying_count tr lcs
        else qualifying_count tr lcs / SampleEvery tr)
    /\ (1 < SampleEvery tr -> n c1 = qualifying_count tr lcs).
Proof.
  intros Ht Hn Hlt.
  destruct (log_all_counts tr lcs c [] Ht) as (c1 & out1 & Hrun & _ & _ & Hcnt);
    [lia|lia|].
  exists c1, out1. split; [done|].
  rewrite Hn in Hcnt. change (slow_count []) with 0 in Hcnt.
  revert Hcnt. destruct (Z.leb_spec (SampleEvery tr) 1) as [Hall|Hper].
  - intros [_ Hs]. split; lia.
  - intros [Hn1 Hs]. rewrite Z.add_0_l in Hn1. rewrite Hn1 in Hs.
    rewrite Z.div_0_l in Hs by lia. split; [|intros _]; lia.
Qed.


(** C10.  [Begin] returns [driver.ErrSkip] and no transaction, whatever
    the wrapped connection is, and leaves the driver side untouched: the
    wrapped [Begin] is never called.  Transactions go through [BeginTx],
    which hands the call to the wrapped connection when it supports
    [driver.ConnBeginTx] and returns [driver.ErrSkip] otherwise. *)
Theorem Begin_always_skips (c : tracedConn) (env : D) :
  Begin c env = ((None, Some ErrSkip), env)
  /\ forall ctx opts,
       BeginTx c ctx opts env =
       match conn_BeginTx (base c) with
       | Some cbtx => cbtx ctx opts env
       | None => ((None, Some ErrSkip), env)
       end.
Proof. split; [reflexivity|]. intros ctx opts. unfold BeginTx. by destruct (conn_BeginTx _). Qed.

End Driver.

(** *** Concrete runs *)

Import Sample.

Lemma traced_calls_return_driver_outcome_witness :
  exists r,
    ExecContext clock_now (conn3 (Some (errorString "exec error")) 5)
      tt "INSERT INTO test VALUES (1)" [] 100 [] = Some r
    /\ (ret_val r, ret_err r, env' r) = (Some tt, Some (errorString "exec error"), 105).
Proof.
  destruct (traced_calls_return_driver_outcome clock_now
              (conn3 (Some (errorString "exec error")) 5)
              tt "INSERT INTO test VALUES (1)" [] 100 []) as [Hexec _].
  destruct (Hexec _ eq_refl) as (r & Hr & Hout & _).
  exists r. split; [exact Hr | exact Hout].
Defined.

Lemma sampling_emits_one_in_N_witness :
  exists c1 out1,
    log_all (conn3 None 0)
      [slow_call; fast_call; slow_call; slow_call; slow_call; slow_call;
       slow_call; slow_call] [] = Some (c1, out1)
    /\ slow_count out1 = 2.
Proof.
  destruct (sampling_emits_one_in_N (conn3 None 0) tracer_1ms_every3
              [slow_call; fast_call; slow_call; slow_call; slow_call; slow_call;
               slow_call; slow_call])
    as (c1 & out1 & Hrun & Hcnt & _);
    [reflexivity | reflexivity | reflexivity |].
  exists c1, out1. split; [exact Hrun | exact Hcnt].
Defined.


End TraceFacts.

(* ===================================================================== *)
(** ** Properties of the migration engine *)
(* ===================================================================== *)

Module MigrationFacts.
Import Migration.

(** *** Discovery *)

Lemma seen_of_snoc ms m : seen_of (ms ++ [m]) = <[v m := name m]> (seen_of ms).
Proof. unfold seen_of. by rewrite foldl_app. Qed.

Lemma seen_of_lookup ms x n :
  seen_of ms !! x = Some n -> exists m, In m ms /\ v m = x /\ name m = n.
Proof.
  induction ms as [|m ms IH] using rev_ind; [done|].
  rewrite seen_of_snoc. destruct (decide (v m = x)) as [<-|Hne].
  - rewrite lookup_insert_eq. intros [= <-]. exists m.
    split; [apply in_or_app; right; by left|done].
  - rewrite lookup_insert_ne by done. intros (m' & Hin & Hv)%IH.
    exists m'. split; [apply in_or_app; by left|done].
Qed.

Lemma seen_of_None ms x :
  seen_of ms !! x = None -> ~ In x (map v ms).
Proof.
  induction ms as [|m ms IH] using rev_ind; [by intros _ []|].
  rewrite seen_of_snoc, map_app, in_app_iff. simpl.
  destruct (decide (v m = x)) as [<-|Hne].
  - by rewrite lookup_insert_eq.
  - rewrite lookup_insert_ne by done. intros Hn%IH. tauto.
Qed.

Lemma seen_of_In ms m :
  NoDup (map v ms) -> In m ms -> seen_of ms !! v m = Some (name m).
Proof.
  induction ms as [|m' ms IH] using rev_ind; [by intros _ []|].
  rewrite map_app, seen_of_snoc. simpl. intros Hnd [Hin|[->|[]]]%in_app_iff.
  - apply NoDup_app in Hnd as (Hnd & Hfresh & _).
    rewrite lookup_insert_ne; [by apply IH|].
    intros Heq. apply (Hfresh (v m)).
    + apply list_elem_of_In, in_map_iff. by exists m.
    + rewrite Heq. by left.
  - by rewrite lookup_insert_eq.
Qed.

Lemma artifacts_cons e entries :
  artifacts (e :: entries) =
  if is_artifact e then e :: artifacts entries else artifacts entries.
Proof. reflexivity. Qed.

(** One entry of the loop, in terms of the units accepted so far. *)
Lemma discover_cons dir e rest ms :
  discover dir (e :: rest) ms (seen_of ms) =
  if is_artifact e then
    match version_of (EName e) with
    | inl err => inl (EBadName (EName e) err)
    | inr x =>
      match seen_of ms !! x with
      | Some prev => inl (EDuplicate x prev (EName e))
      | None =>
        match Open dir ("migrations/" +:+ EName e) with
        | inl err | inr (inl err) => inl (ERead (EName e) err)
        | inr (inr b) =>
          discover dir rest (ms ++ [mkMigration x (EName e) b])
            (seen_of (ms ++ [mkMigration x (EName e) b]))
        end
      end
    end
  else discover dir rest ms (seen_of ms).
Proof.
  unfold is_artifact. cbn [discover].
  destruct (IsDir e); [done|]. destruct (HasPrefix (EName e) "."); [done|].
  cbn [negb andb]. destruct (version_of (EName e)) as [err|x]; [done|].
  destruct (seen_of ms !! x); [done|].
  destruct (Open dir _) as [err|[err|b]]; [done|done|].
  rewrite seen_of_snoc. reflexivity.
Qed.

(** Discovery over a listing cut in two. *)
Lemma discover_app dir pre post :
  forall ms,
    discover dir (pre ++ post) ms (seen_of ms) =
    match discover dir pre ms (seen_of ms) with
    | inl e => inl e
    | inr ms1 => discover dir post ms1 (seen_of ms1)
    end.
Proof.
  induction pre as [|e pre IH]; intros ms; [done|].
  rewrite <- app_comm_cons, !discover_cons.
  destruct (is_artifact e); [|apply IH].
  destruct (version_of (EName e)) as [err|x]; [done|].
  destruct (seen_of ms !! x); [done|].
  destruct (Open dir _) as [err|[err|b]]; [done|done|]. apply IH.
Qed.

(** What accepted units are: one unit for each artifact, in order, with
    the artifact's name, version and contents; no version twice. *)
Lemma discover_accepts dir entries :
  forall ms ms',
    NoDup (map v ms) ->
    discover dir entries ms (seen_of ms) = inr ms' ->
    exists new,
      ms' = (ms ++ new)%list
      /\ Forall2 (unit_of dir) new (artifacts entries)
      /\ NoDup (map v ms').
Proof.
  induction entries as [|e entries IH]; intros ms ms' Hnd.
  - intros [= <-]. exists []. rewrite app_nil_r. by repeat split.
  - rewrite discover_cons, artifacts_cons.
    destruct (is_artifact e); [|apply IH; done].
    destruct (version_of (EName e)) as [err|x] eqn:Hv; [done|].
    destruct (seen_of ms !! x) eqn:Hseen; [done|].
    destruct (Open dir _) as [err|[err|b]] eqn:Hopen; [done|done|].
    intros (new & -> & Hnew & Hnd')%IH.
    + exists (mkMigration x (EName e) b :: new).
      rewrite <- app_assoc in *. split; [done|]. split; [|done].
      by constructor.
    + rewrite map_app. apply NoDup_app. split; [done|]. split.
      * intros y Hy [<-|[]]%list_elem_of_In.
        apply seen_of_None in Hseen. by apply list_elem_of_In in Hy.
      * apply NoDup_singleton.
Qed.

(** Discovery raises none of the errors of the transaction. *)
Lemma discover_error_kind dir entries :
  forall ms seen e, discover dir entries ms seen = inl e -> step_error e = false.
Proof.
  induction entries as [|en entries IH]; intros ms seen e; [done|]. simpl.
  destruct (IsDir en); [apply IH|].
  destruct (HasPrefix (EName en) "."); [apply IH|].
  destruct (version_of (EName en)); [by intros [= <-]|].
  destruct (seen !! _); [by intros [= <-]|].
  destruct (Open dir _) as [?|[?|?]]; [by intros [= <-]|by intros [= <-]|apply IH].
Qed.

(** Versions and names of the artifacts, read off the accepted units. *)
Lemma unit_of_versions dir new arts :
  Forall2 (unit_of dir) new arts ->
  map (fun e => version_of (EName e)) arts = map (fun m => inr (v m)) new.
Proof.
  induction 1 as [|m e new arts (_ & Hv & _) _ IH]; [done|].
  simpl. by rewrite Hv, IH.
Qed.

(** *** Sorting *)

Lemma insert_by_v_perm m l : Permutation (insert_by_v m l) (m :: l).
Proof.
  induction l as [|x l IH]; [done|]. simpl.
  destruct (v x <? v m); [|done].
  rewrite IH. apply perm_swap.
Qed.

Lemma sort_Slice_perm ms : Permutation (sort_Slice ms) ms.
Proof.
  induction ms as [|m ms IH]; [done|].
  unfold sort_Slice in *. simpl. by rewrite insert_by_v_perm, IH.
Qed.

Lemma sort_Slice_In ms m : In m (sort_Slice ms) <-> In m ms.
Proof.
  rewrite <- !list_elem_of_In. by rewrite sort_Slice_perm.
Qed.

Lemma insert_by_v_sorted m l :
  StronglySorted by_version l -> StronglySorted by_version (insert_by_v m l).
Proof.
  induction 1 as [|x l Hl IH Hx]; simpl.
  - repeat constructor.
  - destruct (Z.ltb_spec (v x) (v m)) as [Hlt|Hge].
    + constructor; [done|].
      rewrite insert_by_v_perm. constructor; [unfold by_version; lia|done].
    + constructor; [by constructor|].
      constructor; [done|].
      eapply Forall_impl; [exact Hx|]. unfold by_version. intros y ?. lia.
Qed.

Lemma sort_Slice_sorted ms : StronglySorted by_version (sort_Slice ms).
Proof.
  induction ms as [|m ms IH]; [constructor|]. by apply insert_by_v_sorted.
Qed.

Lemma StronglySorted_filter {A} (R : A -> A -> Prop) p l :
  StronglySorted R l -> StronglySorted R (List.filter p l).
Proof.
  induction 1 as [|x l Hl IH Hx]; simpl; [constructor|].
  destruct (p x); [|done]. constructor; [done|].
  apply List.Forall_forall. intros y [Hy _]%filter_In.
  by eapply List.Forall_forall in Hx.
Qed.

(** With no version twice, the order is strict. *)
Lemma sorted_strict l :
  NoDup (map v l) -> StronglySorted by_version l ->
  StronglySorted by_version_strict l.
Proof.
  induction l as [|x l IH]; [constructor|].
  simpl. intros [Hx Hnd]%NoDup_cons [Hl Hall]%StronglySorted_inv.
  constructor; [by apply IH|].
  apply List.Forall_forall. intros y Hy.
  eapply List.Forall_forall in Hall; [|exact Hy].
  unfold by_version, by_version_strict in *.
  assert (v x <> v y); [|lia].
  intros Heq. apply Hx. rewrite Heq. apply list_elem_of_In, in_map, Hy.
Qed.

Lemma pending_In cur ms m : In m (pending cur ms) <-> In m ms /\ cur < v m.
Proof. unfold pending. rewrite filter_In. by rewrite Z.ltb_lt. Qed.



Section Engine.

Context {U : Type}.
Variable E : Engine U.

(** *** Worlds *)

Lemma advance_nil (w : World U) : advance w [] [] = w.
Proof. destruct w. unfold advance. simpl. by rewrite Nat.add_0_r, !app_nil_r. Qed.

Lemma advance_advance (w : World U) t1 l1 t2 l2 :
  advance (advance w t1 l1) t2 l2 = advance w (t1 ++ t2) (l1 ++ l2).
Proof.
  unfold advance. simpl. rewrite length_app, <- !List.app_assoc. f_equal. lia.
Qed.

Lemma tick_advance c err (w : World U) : tick c err w = advance w [(c, err)] [].
Proof. unfold tick, advance. simpl. rewrite app_nil_r. f_equal. lia. Qed.

Lemma emit_advance e (w : World U) : emit e w = advance w [] [e].
Proof. unfold emit, advance. simpl. rewrite app_nil_r. f_equal. lia. Qed.

Lemma ok_app a b : ok (a ++ b) = (ok a ++ ok b)%list.
Proof. apply map_app. Qed.

Lemma script_app a b : script (a ++ b) = (script a ++ script b)%list.
Proof. apply flat_map_app. Qed.

Lemma reaches_refl (w : World U) : reaches E w w [] [].
Proof. unfold reaches. by rewrite Nat.add_0_r, !app_nil_r. Qed.

Lemma reaches_trans (w w1 w2 : World U) t1 l1 t2 l2 :
  reaches E w w1 t1 l1 -> reaches E w1 w2 t2 l2 ->
  reaches E w w2 (t1 ++ t2) (l1 ++ l2).
Proof.
  intros (Hk1 & Hc1 & Ho1 & Hd1) (Hk2 & Hc2 & Ho2 & Hd2). unfold reaches.
  rewrite Hk2, Hk1, Hc2, Hc1, Ho2, Ho1, length_app, !List.app_assoc.
  repeat split; [lia|]. intros Hs. by rewrite Hd2, Hd1.
Qed.

Lemma reaches_eq (w w' : World U) t l t' l' :
  reaches E w w' t l -> t = t' -> l = l' -> reaches E w w' t' l'.
Proof. by intros ? <- <-. Qed.

Lemma reaches_advance (w : World U) t l : reaches E w (advance w t l) t l.
Proof. by unfold reaches, advance. Qed.

Lemma reaches_tick c err (w : World U) : reaches E w (tick c err w) [(c, err)] [].
Proof. rewrite tick_advance. apply reaches_advance. Qed.

Lemma reaches_emit e (w : World U) : reaches E w (emit e w) [] [e].
Proof. rewrite emit_advance. apply reaches_advance. Qed.

Lemma reaches_persist q args st st' (w : World U) :
  reaches E w (persist E q args st st' w) [] [].
Proof.
  unfold persist. destruct (eng_persist E q args st st') as [d|] eqn:Hp;
    [|apply reaches_refl].
  unfold reaches, settle. cbn [clock calls out committed].
  rewrite Nat.add_0_r, !app_nil_r. repeat split.
  intros [Hstay _]. by rewrite Hstay in Hp.
Qed.

(** *** One statement inside the transaction *)

Lemma Tx_ExecContext_inv (tx : Tx U) q args w err tx' w' :
  done tx = false ->
  Tx_ExecContext E tx q args w = (err, tx', w') ->
  reaches E w w' [(CExec q args, err)] []
  /\ done tx' = false
  /\ (err = None -> sql_exec E q args (work tx) = (work tx', None)).
Proof.
  unfold Tx_ExecContext. intros Hdone. rewrite Hdone.
  destruct (eng_fault E (clock w)) as [e|].
  - intros [= <- <- <-]. split; [apply reaches_tick|]. by split.
  - destruct (sql_exec E q args (work tx)) as [st err'] eqn:Hexec.
    intros [= <- <- <-]. split; [|split; [done|by intros ->]].
    eapply reaches_eq;
      [eapply reaches_trans; [apply reaches_tick|apply reaches_persist]|done|done].
Qed.

(** *** The loop *)

Lemma pending_cons_skip cur m ms :
  (v m <=? cur) = true -> pending cur (m :: ms) = pending cur ms.
Proof.
  intros H%Z.leb_le. unfold pending. simpl.
  replace (cur <? v m) with false by (symmetry; apply Z.ltb_ge; lia). done.
Qed.

Lemma pending_cons_take cur m ms :
  (v m <=? cur) = false -> pending cur (m :: ms) = m :: pending cur ms.
Proof.
  intros H%Z.leb_gt. unfold pending. simpl.
  replace (cur <? v m) with true by (symmetry; apply Z.ltb_lt; lia). done.
Qed.

Lemma apply_pending_spec ms :
  forall cur applied (tx : Tx U) w r tx' w',
    done tx = false ->
    apply_pending E ms cur applied tx w = (r, tx', w') ->
    done tx' = false
    /\ match r with
       | inr applied' =>
           applied' = applied + Z.of_nat (length (pending cur ms))
           /\ reaches E w w' (ok (script (pending cur ms)))
                (map applied_entry (pending cur ms))
           /\ apply_units E (pending cur ms) (work tx) = Some (work tx')
       | inl e =>
           exists ran m rest err,
             pending cur ms = (ran ++ m :: rest)%list
             /\ ((e = EExec (v m) (name m) err
                  /\ reaches E w w'
                       (ok (script ran) ++ [(CExec (sql m) [], Some err)])
                       (map applied_entry ran))
                 \/ (e = ERecord (v m) err
                     /\ reaches E w w'
                          (ok (script ran)
                           ++ [(CExec (sql m) [], None);
                               (CExec recordSQL [v m], Some err)])
                          (map applied_entry ran)))
       end.
Proof.
  induction ms as [|m ms IH]; intros cur applied tx w r tx' w' Hdone.
  - simpl. intros [= <- <- <-]. split; [done|]. simpl.
    split; [lia|]. split; [apply reaches_refl|done].
  - simpl apply_pending.
    destruct (v m <=? cur) eqn:Hskip.
    { rewrite pending_cons_skip by done. by apply IH. }
    rewrite pending_cons_take by done.
    destruct (Tx_ExecContext E tx (sql m) [] w) as [[err1 tx1] w1] eqn:Hbody.
    apply Tx_ExecContext_inv in Hbody as (Hr1 & Hdone1 & Hst1); [|done].
    destruct err1 as [e1|].
    { (* the body failed *)
      intros [= <- <- <-]. split; [done|].
      exists [], m, (pending cur ms), e1. split; [done|]. left. by split. }
    destruct (Tx_ExecContext E tx1 recordSQL [v m] _) as [[err2 tx2] w2] eqn:Hrec.
    apply Tx_ExecContext_inv in Hrec as (Hr2 & Hdone2 & Hst2); [|done].
    pose proof (reaches_trans _ _ _ _ _ _ _ Hr1 Hr2) as Hr12.
    destruct err2 as [e2|].
    { (* the record failed *)
      intros [= <- <- <-]. split; [done|].
      exists [], m, (pending cur ms), e2. split; [done|]. right. by split. }
    intros Hrest. apply IH in Hrest as [Hdone' Hrest]; [|done].
    split; [done|].
    pose proof (reaches_trans _ _ _ _ _ _ _ Hr12 (reaches_emit (applied_entry m) w2))
      as Hr3.
    destruct r as [e|applied'].
    + destruct Hrest as (ran & m' & rest & err & Hpend & Hcase).
      exists (m :: ran), m', rest, err. split; [rewrite Hpend; reflexivity|].
      destruct Hcase as [[-> Hr4]|[-> Hr4]]; [left|right];
        (split; [reflexivity|]);
        (eapply reaches_eq; [exact (reaches_trans _ _ _ _ _ _ _ Hr3 Hr4)|done|done]).
    + destruct Hrest as (-> & Hr4 & Hunits).
      split; [simpl length; lia|]. split.
      * eapply reaches_eq; [exact (reaches_trans _ _ _ _ _ _ _ Hr3 Hr4)|done|done].
      * simpl. rewrite (Hst1 eq_refl), (Hst2 eq_refl). done.
Qed.

(** *** The ledger statements *)

Lemma sql_exec_create args (st : Store U) :
  exists st1,
    sql_exec E createLedgerSQL args st = (st1, None)
    /\ user st1 = user st
    /\ ledger st1 = Some (default [] (ledger st))
    /\ current_version st1 = current_version st
    /\ (is_Some (ledger st) -> st1 = st).
Proof.
  unfold sql_exec, current_version. rewrite String.eqb_refl.
  destruct st as [[rows|] u]; simpl; eexists; repeat split; eauto.
  by intros [? [=]].
Qed.

Lemma sql_exec_record x (st st' : Store U) :
  eng_record E x st = None ->
  sql_exec E recordSQL [x] st = (st', None) ->
  exists rows, ledger st = Some rows /\ ledger st' = Some (rows ++ [x])%list.
Proof.
  unfold sql_exec. intros ->.
  change (String.eqb recordSQL createLedgerSQL) with false.
  rewrite String.eqb_refl.
  destruct (ledger st) as [rows|]; [|done].
  destruct (existsb _ _); [done|]. intros [= <-]. by exists rows.
Qed.

Lemma sql_query_current (st : Store U) n :
  sql_query E currentVersionSQL st = inr n ->
  is_Some (ledger st) /\ n = current_version st.
Proof.
  unfold sql_query, current_version. rewrite String.eqb_refl.
  destruct (ledger st); [|done]. intros [= <-]. by eauto.
Qed.

Lemma Tx_QueryRow_Scan_inv (tx : Tx U) q w r w' :
  done tx = false ->
  Tx_QueryRow_Scan E tx q w = (r, w') ->
  reaches E w w' [(CQuery q, match r with inl e => Some e | inr _ => None end)] []
  /\ (forall n, r = inr n -> sql_query E q (work tx) = inr n).
Proof.
  unfold Tx_QueryRow_Scan. intros ->.
  destruct (eng_fault E (clock w)) as [e|].
  { intros [= <- <-]. split; [apply reaches_tick|done]. }
  destruct (sql_query E q (work tx)) as [e|n];
    intros [= <- <-]; (split; [apply reaches_tick|done]).
Qed.

Lemma Tx_Commit_inv (tx : Tx U) w err tx' w' :
  done tx = false ->
  Tx_Commit E tx w = (err, tx', w') ->
  done tx' = true
  /\ err = close_error E CCommit tx w
  /\ match err with
     | Some e => w' = advance w [(CCommit, Some e)] []
     | None =>
       w' = mkWorld (work tx) (clock w + 1)%nat (calls w ++ [(CCommit, None)])%list (out w)
     end.
Proof.
  unfold Tx_Commit. intros ->.
  destruct (close_error E CCommit tx w) as [e|]; intros [= <- <- <-].
  - by rewrite tick_advance.
  - split; [done|]. split; [done|]. simpl. f_equal. lia.
Qed.

Lemma deferred_rollback_done (tx : Tx U) w :
  done tx = true -> deferred_rollback E tx w = w.
Proof. unfold deferred_rollback, Tx_Rollback. intros ->. by case_decide. Qed.

Lemma deferred_rollback_open (tx : Tx U) w :
  done tx = false ->
  deferred_rollback E tx w
  = advance w [(CRollback, close_error E CRollback tx w)]
      (rollback_log (close_error E CRollback tx w)).
Proof.
  unfold deferred_rollback, Tx_Rollback, rollback_log. intros ->.
  destruct (close_error E CRollback tx w) as [e|].
  - case_decide.
    + by rewrite tick_advance.
    + by rewrite tick_advance, emit_advance, advance_advance.
  - by rewrite tick_advance.
Qed.

(** *** The transaction *)

Lemma run_tx_spec ms start (tx : Tx U) w r tx' w' :
  done tx = false ->
  run_tx E ms start tx w = (r, tx', w') ->
  let cur := current_version (work tx) in
  let st1 := fst (sql_exec E createLedgerSQL [] (work tx)) in
  exists tr logs,
    tx_shape cur ms r tr
    /\ match r with
       | None =>
         done tx' = true
         /\ exists st',
              apply_units E (pending cur ms) st1 = Some st'
              /\ committed w' = st'
              /\ clock w' = (clock w + length tr)%nat
              /\ calls w' = (calls w ++ tr)%list
              /\ out w' = (out w ++ logs)%list
       | Some e =>
         reaches E w w' tr logs
         /\ done tx' = match e with ECommit _ => true | _ => false end
       end.
Proof.
  intros Hdone. unfold run_tx.
  destruct (Tx_ExecContext E tx createLedgerSQL [] w) as [[err1 tx1] w1] eqn:Hcreate.
  apply Tx_ExecContext_inv in Hcreate as (Hr1 & Hdone1 & Hst1); [|done].
  destruct err1 as [e1|].
  { intros [= <- <- <-]. eexists _, []. split; [constructor|]. by split. }
  specialize (Hst1 eq_refl).
  destruct (sql_exec_create [] (work tx)) as (st1 & Hc & _ & _ & Hcur & _).
  rewrite Hc in Hst1. injection Hst1 as Hst1. rewrite Hc. cbn [fst].
  destruct (Tx_QueryRow_Scan E tx1 currentVersionSQL w1) as [r2 w2] eqn:Hquery.
  apply Tx_QueryRow_Scan_inv in Hquery as (Hr2 & Hq); [|done].
  pose proof (reaches_trans _ _ _ _ _ _ _ Hr1 Hr2) as Hr12.
  destruct r2 as [e2|cur].
  { intros [= <- <- <-]. eexists _, []. split; [constructor|]. by split. }
  specialize (Hq cur eq_refl). apply sql_query_current in Hq as [_ ->].
  rewrite <- Hst1, Hcur.
  set (P := pending (current_version (work tx)) ms).
  destruct (apply_pending E ms _ 0 tx1 w2) as [[r3 tx3] w3] eqn:Hloop.
  apply apply_pending_spec in Hloop as [Hdone3 Hloop]; [|done].
  fold P in Hloop.
  destruct r3 as [e3|applied].
  { intros [= <- <- <-].
    destruct Hloop as (ran & m & rest & err & Hpend & [[-> Hr3]|[-> Hr3]]).
    - eexists _, _. split; [by eapply shape_exec_failed|]. split; [|done].
      eapply reaches_eq; [exact (reaches_trans _ _ _ _ _ _ _ Hr12 Hr3)|done|done].
    - eexists _, _. split; [by eapply shape_record_failed|]. split; [|done].
      eapply reaches_eq; [exact (reaches_trans _ _ _ _ _ _ _ Hr12 Hr3)|done|done]. }
  destruct Hloop as (-> & Hr3 & Hunits).
  pose proof (reaches_trans _ _ _ _ _ _ _ Hr12 Hr3) as Hr123.
  destruct (Tx_Commit E tx3 w3) as [[err4 tx4] w4] eqn:Hcommit.
  apply Tx_Commit_inv in Hcommit as (Hdone4 & _ & Hw4); [|done].
  destruct err4 as [e4|].
  { intros [= <- <- <-]. subst w4.
    eexists _, _. split; [apply shape_commit_failed|]. split; [|done].
    eapply reaches_eq;
      [exact (reaches_trans _ _ _ _ _ _ _ Hr123 (reaches_advance _ _ _))|done|done]. }
  rewrite <- Hst1 in Hunits. subst w4.
  destruct Hr123 as (Hk & Hcl & Ho & _).
  assert (Hlen : (clock w3 + 1 = clock w + length (ok (prelude ++ script P ++ [CCommit])))%nat).
  { rewrite Hk, !ok_app, !length_app. cbn [length ok map app prelude]. lia. }
  assert (Hcalls : (calls w3 ++ [(CCommit, None)]
                    = calls w ++ ok (prelude ++ script P ++ [CCommit]))%list).
  { rewrite Hcl, !ok_app, <- !List.app_assoc. done. }
  destruct (0 <? _); intros [= <- <- <-];
    exists (ok (prelude ++ script P ++ [CCommit])).
  - eexists (([] ++ []) ++ map applied_entry P ++ [_])%list.
    split; [constructor|]. split; [done|]. exists (work tx3). split; [done|].
    unfold emit. cbn [committed clock calls out].
    split; [done|]. split; [done|]. split; [done|].
    by rewrite Ho, <- !List.app_assoc.
  - exists (([] ++ []) ++ map applied_entry P)%list.
    split; [constructor|]. split; [done|]. exists (work tx3). split; [done|].
    cbn [committed clock calls out]. by repeat split.
Qed.

(** *** The whole run *)

Lemma Migrate_readdir_failed dir (w : World U) err :
  ReadDir dir "migrations" = inl err ->
  Migrate E dir w = (Some (EReaddir err), w).
Proof. intros H. unfold Migrate. by rewrite H. Qed.

Lemma Migrate_discovery_failed dir (w : World U) entries e :
  ReadDir dir "migrations" = inr entries ->
  discover dir entries [] ∅ = inl e ->
  Migrate E dir w = (Some e, w).
Proof. intros H1 H2. unfold Migrate. by rewrite H1, H2. Qed.

Lemma Migrate_tx_spec dir (w : World U) entries ms r w' :
  ReadDir dir "migrations" = inr entries ->
  discover dir entries [] ∅ = inr ms ->
  Migrate E dir w = (r, w') ->
  let cur := current_version (committed w) in
  let st1 := fst (sql_exec E createLedgerSQL [] (committed w)) in
  (exists err,
     eng_fault E (clock w) = Some err
     /\ r = Some (EBegin err)
     /\ w' = advance w [(CBegin, Some err)] [])
  \/ (eng_fault E (clock w) = None
      /\ exists tr closing logs,
           tx_shape cur (sort_Slice ms) r tr
           /\ calls w' = (calls w ++ (CBegin, None) :: tr ++ closing)%list
           /\ out w' = (out w ++ logs)%list
           /\ match r with
              | None =>
                closing = []
                /\ apply_units E (pending cur (sort_Slice ms)) st1 = Some (committed w')
              | Some e =>
                (stays_in_tx E -> committed w' = committed w)
                /\ exists x,
                     closing = if step_error e then [(CRollback, x)] else []
              end).
Proof.
  intros Hdir Hdisc. unfold Migrate, BeginTx. rewrite Hdir, Hdisc.
  destruct (eng_fault E (clock w)) as [err|] eqn:Hfault.
  { intros [= <- <-]. left. exists err. by rewrite tick_advance. }
  destruct (run_tx E _ _ _ _) as [[r1 tx1] w1] eqn:Hrun.
  intros [= <- <-]. right. split; [done|].
  apply run_tx_spec in Hrun as (tr & logs & Hshape & Hrun); [|done].
  cbn [work committed tick] in Hshape, Hrun.
  destruct r1 as [e|].
  - destruct Hrun as [Hreach Hdone].
    pose proof (reaches_trans _ _ _ _ _ _ _ (reaches_tick CBegin None w) Hreach)
      as (_ & Hcl & Ho & Hkeep).
    destruct (decide (done tx1 = true)) as [Hd|Hd].
    + rewrite deferred_rollback_done by done.
      exists tr, [], logs. split; [done|]. rewrite app_nil_r.
      do 2 (split; [done|]). split; [done|]. exists None.
      destruct e; try (rewrite Hd in Hdone; discriminate Hdone);
        try (by inversion Hshape); done.
    + apply not_true_is_false in Hd.
      rewrite deferred_rollback_open by done.
      eexists tr, _, (logs ++ _)%list. split; [done|].
      unfold advance. cbn [committed clock calls out]. rewrite Hcl, Ho.
      rewrite <- !List.app_assoc. do 2 (split; [done|]). split; [done|].
      eexists.
      destruct e; try (rewrite Hd in Hdone; discriminate Hdone);
        try (by inversion Hshape); done.
  - destruct Hrun as [Hdone (st' & Hunits & Hst & _ & Hcl & Ho)].
    rewrite deferred_rollback_done by done.
    exists tr, [], logs. split; [done|]. cbn [calls tick] in Hcl.
    rewrite app_nil_r, Hcl, Ho, <- List.app_assoc. cbn [out tick].
    subst st'. by repeat split.
Qed.

(** No failed call hides in the calls of a transaction: a failed call is
    the cause of the error returned. *)
Lemma ok_no_failure cs c err : ~ In (c, Some err) (ok cs).
Proof. unfold ok. rewrite in_map_iff. by intros (? & [= _ ?] & _). Qed.

Lemma tx_shape_failure cur ms r tr c err :
  tx_shape cur ms r tr ->
  In (c, Some err) tr ->
  exists e, r = Some e /\ cause e = Some err /\ c <> CRollback.
Proof.
  destruct 1; rewrite ?in_app_iff; simpl;
    intros Hin; repeat (destruct Hin as [Hin|Hin]);
    try (by apply ok_no_failure in Hin); try done;
    injection Hin as <- <-; by eexists.
Qed.

(** *** Runs that have nothing to apply *)



Lemma Forall2_In_r {A B} (R : A -> B -> Prop) l k b :
  Forall2 R l k -> In b k -> exists a, In a l /\ R a b.
Proof.
  induction 1 as [|a b' l k Hab _ IH]; [done|].
  intros [->|Hin].
  - exists a. split; [by left|done].
  - destruct (IH Hin) as (a' & Ha' & HR). exists a'. split; [by right|done].
Qed.

Lemma artifacts_In e entries :
  In e (artifacts entries) <-> In e entries /\ is_artifact e = true.
Proof. unfold artifacts. by rewrite filter_In. Qed.

Lemma artifacts_app l1 l2 : artifacts (l1 ++ l2) = (artifacts l1 ++ artifacts l2)%list.
Proof. apply List.filter_app. Qed.

(** Discovery accepts a listing only if every artifact announces a
    version and no version is announced twice. *)
Lemma discover_ok_versions dir entries ms :
  discover dir entries [] ∅ = inr ms ->
  Forall2 (unit_of dir) ms (artifacts entries) /\ NoDup (map v ms).
Proof.
  intros H. apply (discover_accepts dir entries []) in H as (new & -> & H2 & H3).
  - done.
  - constructor.
Qed.

(** *** Properties of [Migrate] *)

(** C1, as the code has it.  A text handed to SQLite can end the
    transaction it runs in: a migration body that holds [COMMIT] makes
    what came before it durable, and a failure after that is no longer
    undone.  So, for an engine none of whose texts ends the transaction
    ([stays_in_tx]): when [Migrate] returns an error, the committed
    contents of the datastore are what they were before the call (no
    ledger record, no schema change).  And whatever the engine and the
    failures of its environment: a driver call that failed between
    [BeginTx] and the closing call is the cause carried by the error
    returned; an error of the ledger creation, of the version read, of a
    unit's body or of its record is followed by [Rollback] as the last
    driver call; and when [Migrate] returns no error, the committed
    contents are those of all the pending units applied in order. *)
Theorem Migrate_failure_rolls_back dir (w : World U) r w' :
  Migrate E dir w = (r, w') ->
  (stays_in_tx E -> forall e, r = Some e -> committed w' = committed w)
  /\ (forall tr c err,
        calls w' = (calls w ++ tr)%list -> In (c, Some err) tr -> c <> CRollback ->
        exists e, r = Some e /\ cause e = Some err)
  /\ (forall e, r = Some e -> step_error e = true ->
        exists tr err, calls w' = (calls w ++ tr ++ [(CRollback, err)])%list)
  /\ (r = None ->
        exists entries ms,
          ReadDir dir "migrations" = inr entries
          /\ discover dir entries [] ∅ = inr ms
          /\ apply_units E
               (pending (current_version (committed w)) (sort_Slice ms))
               (fst (sql_exec E createLedgerSQL [] (committed w)))
             = Some (committed w')).
Proof.
  intros Hrun.
  destruct (ReadDir dir "migrations") as [err0|entries] eqn:Hdir.
  { rewrite (Migrate_readdir_failed dir w err0 Hdir) in Hrun.
    injection Hrun as <- <-.
    split; [done|]. split; [|split; [by intros e [= <-] [=]|done]].
    intros tr c err Htr. apply (f_equal length) in Htr.
    rewrite length_app in Htr. destruct tr; [done|simpl in Htr; lia]. }
  destruct (discover dir entries [] ∅) as [e0|ms] eqn:Hdisc.
  { rewrite (Migrate_discovery_failed dir w entries e0 Hdir Hdisc) in Hrun.
    injection Hrun as <- <-. apply discover_error_kind in Hdisc.
    split; [done|]. split; [|split; [intros e [= <-]; congruence|done]].
    intros tr c err Htr. apply (f_equal length) in Htr.
    rewrite length_app in Htr. destruct tr; [done|simpl in Htr; lia]. }
  destruct (Migrate_tx_spec dir w entries ms r w' Hdir Hdisc Hrun)
    as [(err & Hfault & -> & ->)|(Hfault & tr & closing & logs & Hshape & Hcalls & Hout & Hr)].
  { (* the transaction could not begin *)
    split; [done|]. split; [|split; [by intros e [= <-] [=]|done]].
    intros tr c err' Htr. cbn [advance calls] in Htr. apply app_inv_head in Htr as <-.
    intros [[= <- <-]|[]] _. by eexists. }
  split; [|split; [|split]].
  - intros Hstay e ->. destruct Hr as [Hkeep _]. by apply Hkeep.
  - intros tr' c err Htr. rewrite Hcalls in Htr. apply app_inv_head in Htr as <-.
    intros [[=]|[Hin|Hin]%in_app_iff] Hc.
    + destruct (tx_shape_failure _ _ _ _ _ _ Hshape Hin) as (e & -> & Hcause & _).
      by eexists.
    + destruct r as [e|].
      * destruct Hr as (_ & x & ->). destruct (step_error e); [|done].
        by destruct Hin as [[= <- _]|[]].
      * by destruct Hr as [-> _].
  - intros e -> Hstep. destruct Hr as (_ & x & ->). rewrite Hstep in Hcalls.
    eexists ((CBegin, None) :: tr), _. rewrite Hcalls. done.
  - intros ->. destruct Hr as [_ Hunits]. by exists entries, ms.
Qed.

(** C7, as the code has it.  In a run whose transaction begins, with
    [cur] the largest version in the ledger (0 when it is empty or
    absent): the units to apply are exactly the discovered units with
    version above [cur], in strictly ascending order of version whatever
    the order of discovery; the driver calls of the transaction are the
    ledger creation, the version read, then for each of those units in
    that order its body followed at once by the record of its version,
    up to the first call that fails, which ends the run with the matching
    error; and when the run returns no error every one of those units
    has been executed and recorded, and the result is committed. *)
Theorem units_applied_in_version_order dir (w : World U) entries ms r w' :
  ReadDir dir "migrations" = inr entries ->
  discover dir entries [] ∅ = inr ms ->
  eng_fault E (clock w) = None ->
  Migrate E dir w = (r, w') ->
  let cur := current_version (committed w) in
  let todo := pending cur (sort_Slice ms) in
  StronglySorted by_version_strict todo
  /\ (forall m, In m todo <-> In m ms /\ cur < v m)
  /\ exists tr closing,
       calls w' = (calls w ++ (CBegin, None) :: tr ++ closing)%list
       /\ tx_shape cur (sort_Slice ms) r tr
       /\ (r = None ->
           tr = ok (prelude ++ script todo ++ [CCommit])
           /\ closing = []
           /\ apply_units E todo (fst (sql_exec E createLedgerSQL [] (committed w)))
              = Some (committed w')).
Proof.
  intros Hdir Hdisc Hfault Hrun cur todo.
  split; [|split].
  - apply StronglySorted_filter, sorted_strict; [|apply sort_Slice_sorted].
    apply discover_ok_versions in Hdisc as [_ Hnd].
    by rewrite sort_Slice_perm.
  - intros m. unfold todo. by rewrite pending_In, sort_Slice_In.
  - destruct (Migrate_tx_spec dir w entries ms r w' Hdir Hdisc Hrun)
      as [(err & Hf & _)|(_ & tr & closing & logs & Hshape & Hcalls & _ & Hr)];
      [congruence|].
    exists tr, closing. split; [done|]. split; [done|].
    intros ->. destruct Hr as [-> Hunits]. split; [|done].
    by inversion Hshape.
Qed.

(** C5, as the code has it.  When the text of an artifact's name before
    its first ["_"] (the whole name when it has none) is not a decimal
    integer in the range of [int], [Migrate] fails before any
    transaction begins and the world is left as it was; and when every
    entry listed before that artifact was accepted, the error is the bad
    name error for that artifact, with the parse error as its cause. *)
Theorem malformed_name_fails_discovery dir (w : World U) entries e err :
  ReadDir dir "migrations" = inr entries ->
  In e (artifacts entries) ->
  version_of (EName e) = inl err ->
  (exists me, Migrate E dir w = (Some me, w))
  /\ (forall pre post ms1,
        entries = (pre ++ e :: post)%list ->
        discover dir pre [] ∅ = inr ms1 ->
        Migrate E dir w = (Some (EBadName (EName e) err), w)).
Proof.
  intros Hdir Hin Hbad. split.
  - destruct (discover dir entries [] ∅) as [me|ms] eqn:Hdisc.
    + exists me. by apply Migrate_discovery_failed with entries.
    + apply discover_ok_versions in Hdisc as [Hunits _].
      destruct (Forall2_In_r _ _ _ _ Hunits Hin) as (m & _ & _ & Hv & _).
      congruence.
  - intros pre post ms1 -> Hpre.
    apply Migrate_discovery_failed with (pre ++ e :: post)%list; [done|].
    change ∅ with (seen_of []) in *.
    rewrite discover_app, Hpre, discover_cons.
    apply artifacts_In in Hin as [_ ->]. by rewrite Hbad.
Qed.

(** C6, as the code has it.  When two artifacts announce the same
    version, [Migrate] fails before any transaction begins and the world
    is left as it was; and when every entry listed before the second of
    them was accepted, the error is the duplicate error carrying that
    version and the names of both. *)
Theorem duplicate_version_fails_discovery
    dir (w : World U) entries pre e1 mid e2 post x :
  ReadDir dir "migrations" = inr entries ->
  artifacts entries = (pre ++ e1 :: mid ++ e2 :: post)%list ->
  version_of (EName e1) = inr x ->
  version_of (EName e2) = inr x ->
  (exists me, Migrate E dir w = (Some me, w))
  /\ (forall before after ms1,
        entries = (before ++ e2 :: after)%list ->
        In e1 (artifacts before) ->
        discover dir before [] ∅ = inr ms1 ->
        Migrate E dir w = (Some (EDuplicate x (EName e1) (EName e2)), w)).
Proof.
  intros Hdir Harts Hv1 Hv2. split.
  - destruct (discover dir entries [] ∅) as [me|ms] eqn:Hdisc.
    { exists me. by apply Migrate_discovery_failed with entries. }
    apply discover_ok_versions in Hdisc as [Hunits Hnd].
    apply unit_of_versions in Hunits.
    rewrite Harts, !map_app in Hunits. simpl in Hunits.
    rewrite map_app in Hunits. simpl in Hunits. rewrite Hv1, Hv2 in Hunits.
    assert (Hnd' : NoDup (map (fun m => @inr error Z (v m)) ms)).
    { rewrite <- (map_map v inr). apply (NoDup_fmap_2 inr). exact Hnd. }
    rewrite <- Hunits in Hnd'.
    apply NoDup_app in Hnd' as (_ & _ & Hnd').
    apply NoDup_cons in Hnd' as [Hnotin _].
    exfalso. apply Hnotin, list_elem_of_In, in_or_app. right. by left.
  - intros before after ms1 -> Hin1 Hbefore.
    assert (Hart2 : is_artifact e2 = true).
    { assert (In e2 (artifacts (before ++ e2 :: after))) as [_ ?]%artifacts_In; [|done].
      rewrite Harts. apply in_or_app. right. right. apply in_or_app. right. by left. }
    apply Migrate_discovery_failed with (before ++ e2 :: after)%list; [done|].
    pose proof (discover_ok_versions _ _ _ Hbefore) as [Hunits Hnd].
    destruct (Forall2_In_r _ _ _ _ Hunits Hin1) as (m1 & Hm1 & Hname & Hver & _).
    assert (v m1 = x) as Hx by congruence.
    pose proof (seen_of_In ms1 m1 Hnd Hm1) as Hseen. rewrite Hx, Hname in Hseen.
    change ∅ with (seen_of []) in *.
    rewrite discover_app, Hbefore, discover_cons, Hart2, Hv2, Hseen. done.
Qed.


End Engine.

(** *** Concrete runs *)

Import Sample.

Lemma Migrate_failure_rolls_back_witness :
  exists e w',
    Migrate (engine no_faults) bad_second fresh = (Some e, w')
    /\ committed w' = committed fresh.
Proof.
  eassert (Hrun : Migrate (engine no_faults) bad_second fresh = (Some _, _))
    by (vm_compute; reflexivity).
  destruct (Migrate_failure_rolls_back (engine no_faults) bad_second fresh _ _ Hrun)
    as [Hkeep _].
  eexists _, _. split; [exact Hrun|]. eapply Hkeep; [|reflexivity].
  split; intros; reflexivity.
Defined.

(** A body that ends with [COMMIT;]: the first unit, its record and the
    ledger table stay in the database although the second unit fails
    and [Migrate] returns its error; the [Rollback] that follows finds
    no transaction. *)
Lemma body_with_commit_persists :
  exists w',
    Migrate (engine_tc no_faults) commit_in_body fresh =
    (Some (EExec 2 "002_bad.sql" (errorString "near INVALID: syntax error")), w')
    /\ committed fresh = mkStore None []
    /\ committed w' =
       mkStore (Some [1]) ["CREATE TABLE users(id INTEGER PRIMARY KEY); COMMIT;"]
    /\ calls w' =
       [(CBegin, None);
        (CExec createLedgerSQL [], None);
        (CQuery currentVersionSQL, None);
        (CExec "CREATE TABLE users(id INTEGER PRIMARY KEY); COMMIT;" [], None);
        (CExec recordSQL [1], None);
        (CExec "INVALID SQL SYNTAX HERE;" [],
         Some (errorString "near INVALID: syntax error"));
        (CRollback, Some (errorString "cannot rollback - no transaction is active"))].
Proof. eexists. repeat split; vm_compute; reflexivity. Qed.



(** A name with no separator at all is accepted: the file ["42"] is
    applied as version 42. *)
Lemma name_without_separator_is_accepted :
  integer_prefix_then_separator "42" = false
  /\ exists w',
       Migrate (engine no_faults) no_separator fresh = (None, w')
       /\ ledger (committed w') = Some [42].
Proof. split; [reflexivity|]. eexists. split; vm_compute; reflexivity. Qed.

Lemma malformed_name_fails_discovery_witness :
  Migrate (engine no_faults) invalid_name fresh =
  (Some (EBadName "abc_invalid.sql" (NumError "Atoi" "abc" ErrSyntax)), fresh).
Proof.
  destruct (malformed_name_fails_discovery (engine no_faults) invalid_name fresh
              [mkDirEntry false "001_init.sql"; mkDirEntry false "abc_invalid.sql"]
              (mkDirEntry false "abc_invalid.sql")
              (NumError "Atoi" "abc" ErrSyntax))
    as [_ Hnamed].
  - reflexivity.
  - vm_compute. right. left. reflexivity.
  - reflexivity.
  - eapply (Hnamed [mkDirEntry false "001_init.sql"] []); vm_compute; reflexivity.
Defined.

(** Two artifacts announce version 1, yet the error is the bad name met
    between them and names neither. *)
Lemma earlier_bad_name_hides_duplicate :
  version_of "001_a.sql" = inr 1
  /\ version_of "1_c.sql" = inr 1
  /\ Migrate (engine no_faults) bad_between_duplicates fresh =
     (Some (EBadName "0x_b.sql" (NumError "Atoi" "0x" ErrSyntax)), fresh).
Proof. repeat split; vm_compute; reflexivity. Qed.

Lemma duplicate_version_fails_discovery_witness :
  Migrate (engine no_faults) duplicate_version fresh =
  (Some (EDuplicate 1 "001_duplicate.sql" "001_init.sql"), fresh).
Proof.
  destruct (duplicate_version_fails_discovery (engine no_faults) duplicate_version
              fresh
              [mkDirEntry false "001_duplicate.sql"; mkDirEntry false "001_init.sql"]
              [] (mkDirEntry false "001_duplicate.sql") []
              (mkDirEntry false "001_init.sql") [] 1)
    as [_ Hnamed]; [reflexivity..|].
  eapply (Hnamed [mkDirEntry false "001_duplicate.sql"] []).
  - reflexivity.
  - vm_compute. left. reflexivity.
  - vm_compute. reflexivity.
Defined.

(** Version 2 is above the current version 0, yet its SQL is never
    executed, because unit 1 failed first; and with a failure inflicted
    on the fifth driver call, the body of unit 1 executes without error
    while its version is not recorded. *)
Lemma failed_unit_stops_the_run :
  current_version (committed fresh) = 0
  /\ version_of "002_add_posts.sql" = inr 2
  /\ (exists w',
        Migrate (engine no_faults) bad_first fresh =
        (Some (EExec 1 "001_bad.sql" (errorString "near INVALID: syntax error")), w')
        /\ calls w' =
           [(CBegin, None);
            (CExec createLedgerSQL [], None);
            (CQuery currentVersionSQL, None);
            (CExec "INVALID SQL SYNTAX HERE;" [],
             Some (errorString "near INVALID: syntax error"));
            (CRollback, None)])
  /\ (exists w',
        Migrate (engine (fault_at 4)) two_units fresh =
        (Some (ERecord 1 (errorString "disk I/O error")), w')
        /\ calls w' =
           [(CBegin, None);
            (CExec createLedgerSQL [], None);
            (CQuery currentVersionSQL, None);
            (CExec "CREATE TABLE users(id INTEGER PRIMARY KEY);" [], None);
            (CExec recordSQL [1], Some (errorString "disk I/O error"));
            (CRollback, None)]).
Proof.
  split; [reflexivity|]. split; [reflexivity|].
  split; eexists; split; vm_compute; reflexivity.
Qed.

Lemma units_applied_in_version_order_witness :
  exists w',
    Migrate (engine no_faults) two_units fresh = (None, w')
    /\ calls w' =
       ok ([CBegin] ++ prelude
           ++ [CExec "CREATE TABLE users(id INTEGER PRIMARY KEY);" [];
               CExec recordSQL [1];
               CExec "CREATE TABLE posts(id INTEGER PRIMARY KEY);" [];
               CExec recordSQL [2]]
           ++ [CCommit]).
Proof.
  assert (Hrun : Migrate (engine no_faults) two_units fresh = (None, after_two_units))
    by (vm_compute; reflexivity).
  destruct (units_applied_in_version_order (engine no_faults) two_units fresh
              [mkDirEntry false "001_init.sql"; mkDirEntry false "002_add_posts.sql"]
              [mkMigration 1 "001_init.sql" "CREATE TABLE users(id INTEGER PRIMARY KEY);";
               mkMigration 2 "002_add_posts.sql" "CREATE TABLE posts(id INTEGER PRIMARY KEY);"]
              None after_two_units eq_refl eq_refl eq_refl Hrun)
    as (_ & _ & tr & closing & Hcalls & _ & Hdone).
  destruct (Hdone eq_refl) as (-> & -> & _).
  exists after_two_units. split; [exact Hrun|]. rewrite Hcalls. vm_compute. reflexivity.
Defined.

End MigrationFacts.

(* ===================================================================== *)
(** ** More on the tracer *)
(* ===================================================================== *)

Module TraceMore.
Import Trace TraceFacts.

Section Driver.

Context {D Result Rows DTx Stmt Ctx TxOptions : Type}.
Variable now : D -> Z.

Abbreviation tracedConn := (@tracedConn D Result Rows DTx Stmt Ctx TxOptions).

Lemma error_count_app out1 out2 :
  error_count (out1 ++ out2) = error_count out1 + error_count out2.
Proof. unfold error_count. rewrite List.filter_app, length_app. lia. Qed.

Lemma failed_count_cons lc lcs :
  failed_count (lc :: lcs) = (if failed lc then 1 else 0) + failed_count lcs.
Proof. unfold failed_count. simpl. destruct (failed lc); simpl; lia. Qed.

(** What one call of [log] can do: nothing, one error entry, or one
    slow-query warning; the counter moves only with the sampling check
    of a successful call. *)
Lemma log_cases (c : tracedConn) kind q args dur err out :
  exists c1 new,
    log c kind q args dur err out = Some (c1, (out ++ new)%list)
    /\ base c1 = base c /\ t c1 = t c
    /\ ((new = [] /\ (c1 = c \/ (err = None /\ n c1 = (n c + 1) mod 2 ^ 64)))
        \/ (exists e tr,
              err = Some e /\ t c = Some tr /\ c1 = c
              /\ new = [Logger.ErrorSkipframes 2 "db.query.error"
                          [("kind", Logger.FString kind);
                           ("sql", Logger.FString (compact q));
                           ("args", maskArgs args (MaskArgs tr));
                           ("dur", Logger.FDuration dur);
                           ("err", Logger.FString (Error e))]])
        \/ (err = None
            /\ (c1 = c \/ n c1 = (n c + 1) mod 2 ^ 64)
            /\ new = [Logger.WarnSkipframes 2 "db.query.slow"
                        [("kind", Logger.FString kind);
                         ("sql", Logger.FString (compact q));
                         ("dur", Logger.FDuration dur)]])).
Proof.
  unfold log, sampled.
  destruct (t c) as [tr|] eqn:Ht.
  2:{ exists c, []. rewrite app_nil_r. repeat split; auto. }
  destruct err as [e|].
  { eexists c, [_]. repeat split; auto. right. left. by exists e, tr. }
  destruct (_ || _).
  { exists c, []. rewrite app_nil_r. repeat split; auto. }
  destruct (SampleEvery tr <=? 1).
  { eexists c, [_]. repeat split; auto. right. right. auto. }
  destruct (_ =? 0).
  - eexists _, [_]. repeat split; auto. right. right. auto.
  - eexists _, []. rewrite app_nil_r. repeat split; auto.
Qed.

(** X1.  On a call that succeeded, [log] does not look at the
    arguments: the outcome is the same for every argument list, and an
    entry it emits holds no argument list and no ["args"] key. *)
Theorem success_path_never_logs_arguments
    (c : tracedConn) (kind q : string) (args : list NamedValue) (dur : Z)
    (out : list Logger.Entry) :
  exists c1 new,
    log c kind q args dur None out = Some (c1, (out ++ new)%list)
    /\ (forall args2, log c kind q args2 dur None out = Some (c1, (out ++ new)%list))
    /\ forall en, In en new -> no_args en.
Proof.
  unfold log, sampled.
  destruct (t c) as [tr|].
  2:{ exists c, []. rewrite app_nil_r. by repeat split. }
  destruct (_ || _).
  { exists c, []. rewrite app_nil_r. by repeat split. }
  assert (Hno : forall k s d,
            no_args (Logger.WarnSkipframes 2 "db.query.slow"
                       [("kind", Logger.FString k); ("sql", Logger.FString s);
                        ("dur", Logger.FDuration d)])).
  { intros k s d. split; [reflexivity|]. intros k' a Hin. simpl in Hin.
    repeat (destruct Hin as [Hin|Hin]; [discriminate Hin|]). exact Hin. }
  destruct (SampleEvery tr <=? 1).
  { eexists c, [_]. split; [done|]. split; [done|]. intros en [<-|[]]. apply Hno. }
  destruct (_ =? 0).
  - eexists _, [_]. split; [done|]. split; [done|]. intros en [<-|[]]. apply Hno.
  - eexists _, []. rewrite app_nil_r. by repeat split.
Qed.

(** X2.  Every failed call is reported: over any run of calls on a
    connection that has a tracer, the number of [db.query.error] entries
    added to the log is the number of calls that failed, whatever the
    threshold, the sampling period and the state of the counter. *)
Theorem every_failure_is_logged (tr : Tracer) (lcs : list LogCall) :
  forall (c : tracedConn) (out : list Logger.Entry),
    t c = Some tr ->
    exists c1 out1,
      log_all c lcs out = Some (c1, out1)
      /\ error_count out1 = error_count out + failed_count lcs.
Proof.
  induction lcs as [|[kind q args dur err] lcs IH]; intros c out Ht.
  - exists c, out. split; [done|]. unfold failed_count. simpl. lia.
  - destruct (log_cases c kind q args dur err out)
      as (c1 & new & Hlog & _ & Ht1 & Hcase).
    cbn [log_all lc_kind lc_sql lc_args lc_dur lc_err]. rewrite Hlog.
    destruct (IH c1 (out ++ new)%list) as (c2 & out2 & Hrun & Hcnt); [congruence|].
    exists c2, out2. split; [done|].
    rewrite Hcnt, error_count_app, failed_count_cons. unfold failed. simpl.
    destruct Hcase as [[-> Hc]|[(e & tr' & -> & _ & _ & ->)|(-> & _ & ->)]].
    + change (error_count []) with 0.
      destruct err as [e|]; [|lia].
      (* a failed call always leaves an entry *)
      exfalso. unfold log in Hlog. rewrite Ht in Hlog.
      injection Hlog as _ Hout. apply (f_equal length) in Hout.
      rewrite !length_app in Hout. simpl in Hout. lia.
    + change (error_count [_]) with 1. lia.
    + change (error_count [_]) with 0. lia.
Qed.

(** X3.  With no tracer, or with a threshold that is zero or negative,
    calls that succeed leave no trace at all: over any run of successful
    calls the log and the connection, counter included, stay as they
    were. *)
Theorem disabled_threshold_is_silent (c : tracedConn) (lcs : list LogCall)
    (out : list Logger.Entry) :
  (match t c with None => True | Some tr => SlowThresh tr <= 0 end) ->
  (forall lc, In lc lcs -> lc_err lc = None) ->
  log_all c lcs out = Some (c, out).
Proof.
  intros Hoff. induction lcs as [|lc lcs IH]; intros Hok; [done|].
  simpl. unfold log. rewrite (Hok lc) by (by left).
  destruct (t c) as [tr|] eqn:Ht.
  - replace (SlowThresh tr <=? 0) with true by (symmetry; by apply Z.leb_le).
    simpl. apply IH. intros lc' Hin. apply Hok. by right.
  - apply IH. intros lc' Hin. apply Hok. by right.
Qed.

(** X4.  With a sampling period [N > 1], any [N] consecutive qualifying
    events on a connection produce exactly one slow-query warning,
    wherever the counter stands, as long as it does not wrap. *)
Theorem one_warning_per_period (c : tracedConn) (tr : Tracer)
    (lcs : list LogCall) (out : list Logger.Entry) :
  t c = Some tr ->
  1 < SampleEvery tr ->
  0 <= n c ->
  qualifying_count tr lcs = SampleEvery tr ->
  n c + SampleEvery tr < 2 ^ 64 ->
  exists c1 out1,
    log_all c lcs out = Some (c1, out1)
    /\ n c1 = n c + SampleEvery tr
    /\ slow_count out1 = slow_count out + 1.
Proof.
  intros Ht HN Hn HK Hlt.
  destruct (log_all_counts tr lcs c out Ht Hn) as (c1 & out1 & Hrun & _ & _ & Hcnt);
    [lia|].
  exists c1, out1. split; [done|]. revert Hcnt.
  replace (SampleEvery tr <=? 1) with false by (symmetry; apply Z.leb_gt; lia).
  rewrite HK. intros [Hn1 Hs]. split; [done|]. rewrite Hs, Hn1.
  assert ((n c + SampleEvery tr) / SampleEvery tr = n c / SampleEvery tr + 1); [|lia].
  rewrite <- (Z.mul_1_l (SampleEvery tr)) at 1.
  rewrite Z.div_add by lia. done.
Qed.

(** X5.  A traced call appends at most one entry to the log and removes
    none, and moves the counter by at most one; and when the wrapped
    connection lacks the context-aware method, the call returns
    [driver.ErrSkip] with no result and touches nothing: not the driver
    side, not the log, not the counter. *)
Theorem traced_call_footprint
    (c : tracedConn) (ctx : Ctx) (q : string) (args : list NamedValue)
    (env : D) (out : list Logger.Entry) :
  (exists r,
     ExecContext now c ctx q args env out = Some r
     /\ (out' r = out \/ exists en, out' r = (out ++ [en])%list)
     /\ (conn' r = c \/ n (conn' r) = (n c + 1) mod 2 ^ 64)
     /\ (conn_ExecContext (base c) = None ->
         r = mkTraced None (Some ErrSkip) c env out))
  /\ (exists r,
     QueryContext now c ctx q args env out = Some r
     /\ (out' r = out \/ exists en, out' r = (out ++ [en])%list)
     /\ (conn' r = c \/ n (conn' r) = (n c + 1) mod 2 ^ 64)
     /\ (conn_QueryContext (base c) = None ->
         r = mkTraced None (Some ErrSkip) c env out)).
Proof.
  split.
  - unfold ExecContext. destruct (conn_ExecContext (base c)) as [ce|].
    2:{ eexists. split; [done|]. cbn. auto. }
    destruct (ce ctx q args env) as [[res err] env1].
    destruct (log_cases c "exec" q args (now env1 - now env) err out)
      as (c1 & new & -> & _ & _ & Hcase).
    eexists. split; [done|]. cbn [out' conn'].
    split; [|split; [|done]].
    + destruct Hcase as [[-> _]|[(e & tr & _ & _ & _ & ->)|(_ & _ & ->)]];
        [left; by rewrite app_nil_r|right; by eexists..].
    + destruct Hcase as [[_ [->|[_ ->]]]|[(e & tr & _ & _ & -> & _)|(_ & [->| ->] & _)]];
        auto.
  - unfold QueryContext. destruct (conn_QueryContext (base c)) as [cq|].
    2:{ eexists. split; [done|]. cbn. auto. }
    destruct (cq ctx q args env) as [[rows err] env1].
    destruct (log_cases c "query" q args (now env1 - now env) err out)
      as (c1 & new & -> & _ & _ & Hcase).
    eexists. split; [done|]. cbn [out' conn'].
    split; [|split; [|done]].
    + destruct Hcase as [[-> _]|[(e & tr & _ & _ & _ & ->)|(_ & _ & ->)]];
        [left; by rewrite app_nil_r|right; by eexists..].
    + destruct Hcase as [[_ [->|[_ ->]]]|[(e & tr & _ & _ & -> & _)|(_ & [->| ->] & _)]];
        auto.
Qed.

End Driver.

Import Sample.

Lemma every_failure_is_logged_witness :
  exists c1 out1,
    log_all (conn3 None 0) [slow_call; failed_call; fast_call; failed_call] []
      = Some (c1, out1)
    /\ error_count out1 = 2.
Proof.
  destruct (every_failure_is_logged tracer_1ms_every3
              [slow_call; failed_call; fast_call; failed_call] (conn3 None 0) [])
    as (c1 & out1 & Hrun & Hcnt); [reflexivity|].
  exists c1, out1. split; [exact Hrun | exact Hcnt].
Defined.

Lemma disabled_threshold_is_silent_witness :
  log_all conn_no_threshold [slow_call; fast_call; slow_call] []
    = Some (conn_no_threshold, []).
Proof.
  apply (disabled_threshold_is_silent conn_no_threshold
           [slow_call; fast_call; slow_call] []).
  - simpl. lia.
  - intros lc [<-|[<-|[<-|[]]]]; reflexivity.
Defined.

Lemma one_warning_per_period_witness :
  exists c1 out1,
    log_all conn3_at7 [slow_call; fast_call; slow_call; slow_call] []
      = Some (c1, out1)
    /\ n c1 = 10 /\ slow_count out1 = 1.
Proof.
  destruct (one_warning_per_period conn3_at7 tracer_1ms_every3
              [slow_call; fast_call; slow_call; slow_call] [])
    as (c1 & out1 & Hrun & Hn & Hcnt);
    [reflexivity | reflexivity | simpl; lia | reflexivity | reflexivity |].
  exists c1, out1. split; [exact Hrun | split; [exact Hn | exact Hcnt]].
Defined.

End TraceMore.

(* ===================================================================== *)
(** ** More on [compact] *)
(* ===================================================================== *)

Module CompactMore.
Import Trace GoFacts CompactFacts.

(** *** Reading a text rune by rune *)

Lemma range_from_sdrop s : forall k, range_from k s = range_from 0 (sdrop k s).
Proof.
  induction s as [|c t IH]; intros [|k]; try done. simpl sdrop.
  change (range_from (S k) (String c t)) with (range_from k t). apply IH.
Qed.

Lemma decode_width s r w :
  DecodeRuneInString s = (r, w) -> (w <= String.length s)%nat.
Proof.
  unfold DecodeRuneInString.
  repeat case_match; intros [= <- <-]; simpl; lia.
Qed.

Lemma decode_width_pos c t r w :
  DecodeRuneInString (String c t) = (r, w) -> (1 <= w)%nat.
Proof.
  unfold DecodeRuneInString.
  repeat case_match; intros [= <- <-]; simpl; lia.
Qed.

Lemma substring_sdrop s : forall w,
  (w <= String.length s)%nat -> substring 0 w s +:+ sdrop w s = s.
Proof.
  induction s as [|c t IH]; intros [|w] Hw; simpl in Hw; try lia.
  - done.
  - by rewrite substring_0_0.
  - rewrite substring_0_S, append_cons. simpl sdrop. rewrite IH by lia. done.
Qed.

Lemma length_substring s : forall w,
  (w <= String.length s)%nat -> String.length (substring 0 w s) = w.
Proof.
  induction s as [|c t IH]; intros [|w] Hw; simpl in Hw; try lia.
  - done.
  - by rewrite substring_0_0.
  - rewrite substring_0_S. simpl. rewrite IH by lia. done.
Qed.

Lemma length_sdrop s : forall k, (String.length (sdrop k s) <= String.length s)%nat.
Proof.
  induction s as [|c t IH]; intros [|k]; simpl; try lia.
  specialize (IH k). lia.
Qed.

Lemma substring_app (a b : string) : substring 0 (String.length a) (a +:+ b) = a.
Proof.
  induction a as [|c a IH]; [apply substring_0_0|].
  rewrite append_cons. simpl String.length. rewrite substring_0_S. by rewrite IH.
Qed.

Lemma sdrop_app (a b : string) : sdrop (String.length a) (a +:+ b) = b.
Proof. induction a as [|c a IH]; [done|]. rewrite append_cons. simpl. exact IH. Qed.

Lemma range_cons c t :
  range (String c t) =
  (fst (DecodeRuneInString (String c t)),
   substring 0 (snd (DecodeRuneInString (String c t))) (String c t))
  :: range (sdrop (snd (DecodeRuneInString (String c t))) (String c t)).
Proof.
  unfold range.
  change (range_from 0 (String c t)) with
    (let '(r, w) := DecodeRuneInString (String c t) in
     (r, substring 0 w (String c t)) :: range_from (w - 1) t).
  destruct (DecodeRuneInString (String c t)) as [r w] eqn:Hdec.
  apply decode_width_pos in Hdec. destruct w as [|w]; [lia|].
  cbn [fst snd]. rewrite range_from_sdrop.
  replace (S w - 1)%nat with w by lia. done.
Qed.

(** The runes of a text hold its bytes and read back as they are. *)
Lemma range_chain n : forall s,
  (String.length s <= n)%nat -> chain (range s) /\ bytes_of (range s) = s.
Proof.
  induction n as [|n IH]; intros [|c t] Hlen; simpl in Hlen; try lia; try done.
  rewrite range_cons.
  destruct (DecodeRuneInString (String c t)) as [r w] eqn:Hdec.
  pose proof (decode_width _ _ _ Hdec) as Hw.
  pose proof (decode_width_pos _ _ _ _ Hdec) as Hw1.
  cbn [fst snd].
  destruct (IH (sdrop w (String c t))) as [Hch Hby].
  { destruct w as [|w]; [lia|]. simpl sdrop. pose proof (length_sdrop t w). lia. }
  assert (Hs : substring 0 w (String c t) +:+ sdrop w (String c t) = String c t)
    by (by apply substring_sdrop).
  split.
  - cbn [chain fst snd]. rewrite Hby, Hs, length_substring by done.
    split; [done|]. split; [|done].
    intros He. apply (f_equal String.length) in He.
    rewrite length_substring in He by done. simpl in He. lia.
  - rewrite bytes_of_cons. cbn [snd]. by rewrite Hby.
Qed.

Lemma range_bytes_of rs : chain rs -> range (bytes_of rs) = rs.
Proof.
  induction rs as [|[r bs] rs IH]; [done|].
  cbn [chain fst snd]. intros (Hdec & Hne & Hch).
  rewrite bytes_of_cons. cbn [snd].
  destruct bs as [|c bs]; [done|].
  rewrite append_cons in Hdec |- *. rewrite range_cons, Hdec. cbn [fst snd].
  rewrite <- append_cons.
  rewrite substring_app, sdrop_app, IH by done. done.
Qed.

(** *** What the decoder looks at *)

Lemma first_lead_range b sz lo hi :
  first b = FLead sz lo hi -> locb <= lo /\ hi <= hicb.
Proof.
  unfold first, locb, hicb.
  repeat case_match; intros [= <- <- <-] || intros [=]; lia.
Qed.

Lemma no_cont_outside x lo hi :
  locb <= lo -> hi <= hicb -> cont x = false -> (x <? lo) || (hi <? x) = true.
Proof.
  unfold cont. intros Hlo Hhi Hc.
  apply andb_false_iff in Hc as [Hc|Hc]; apply Z.leb_gt in Hc;
    apply orb_true_iff; [left|right]; apply Z.ltb_lt; lia.
Qed.

Lemma same_cont_refl s : same_cont s s.
Proof. induction s as [|c s IH]; [done|]. right. done. Qed.

Lemma same_cont_app (a t1 t2 : string) :
  same_cont t1 t2 -> same_cont (a +:+ t1) (a +:+ t2).
Proof.
  intros H. induction a as [|c a IH]; [done|].
  rewrite !append_cons. right. done.
Qed.

Lemma same_cont_heads a r1 b r2 :
  cont (byte_of a) = false -> cont (byte_of b) = false ->
  same_cont (String a r1) (String b r2).
Proof. intros Ha Hb. left. done. Qed.

(** The decoder reads the same rune before two such texts. *)
Lemma decode_same_cont c t1 t2 :
  same_cont t1 t2 ->
  DecodeRuneInString (String c t1) = DecodeRuneInString (String c t2).
Proof.
  intros H. unfold DecodeRuneInString.
  destruct (first (byte_of c)) as [| |sz lo hi] eqn:Hf; [done|done|].
  apply first_lead_range in Hf as [Hlo Hhi].
  assert (Hout : forall x, cont x = false -> (x <? lo) || (hi <? x) = true)
    by (intros x; by apply no_cont_outside).
  destruct t1 as [|a1 r1], t2 as [|b1 s1]; simpl in H.
  { done. }
  { by rewrite Hout. }
  { by rewrite Hout. }
  destruct H as [[Ha Hb]|[<- H]]; [by rewrite !Hout|].
  destruct (_ || _); [done|]. destruct (sz <=? 2)%nat; [done|].
  destruct r1 as [|a2 r2], s1 as [|b2 s2]; simpl in H.
  { done. }
  { by rewrite H. }
  { by rewrite H. }
  destruct H as [[Ha Hb]|[<- H]]; [by rewrite Ha, Hb|].
  destruct (cont (byte_of a2)); simpl negb; cbv iota; [|done].
  destruct (sz <=? 3)%nat; [done|].
  destruct r2 as [|a3 r3], s2 as [|b3 s3]; simpl in H.
  { done. }
  { by rewrite H. }
  { by rewrite H. }
  destruct H as [[Ha Hb]|[<- H]]; [by rewrite Ha, Hb|]. done.
Qed.

Lemma decode_app_same_cont (bs t1 t2 : string) :
  bs <> EmptyString -> same_cont t1 t2 ->
  DecodeRuneInString (bs +:+ t1) = DecodeRuneInString (bs +:+ t2).
Proof.
  intros Hne H. destruct bs as [|c bs]; [done|].
  rewrite !append_cons. apply decode_same_cont. by apply same_cont_app.
Qed.

(** A white-space rune never starts with a continuation byte. *)
Lemma space_head c t r w :
  DecodeRuneInString (String c t) = (r, w) -> IsSpace r = true ->
  cont (byte_of c) = false.
Proof.
  intros Hdec Hsp. destruct (cont (byte_of c)) eqn:Hc; [|done].
  exfalso. unfold cont, locb, hicb in Hc. apply andb_true_iff in Hc as [H1 H2].
  apply Z.leb_le in H1, H2.
  unfold DecodeRuneInString, first in Hdec.
  replace (byte_of c <? 128) with false in Hdec by (symmetry; apply Z.ltb_ge; lia).
  replace (byte_of c <? 194) with true in Hdec by (symmetry; apply Z.ltb_lt; lia).
  injection Hdec as <- _. done.
Qed.

Lemma space_unit_head u rest :
  chain (u :: rest) -> is_space_rune u = true ->
  exists c t, snd u +:+ bytes_of rest = String c t /\ cont (byte_of c) = false.
Proof.
  cbn [chain]. intros (Hdec & Hne & _) Hsp.
  destruct (snd u) as [|c bs]; [done|]. rewrite append_cons in Hdec |- *.
  exists c, (bs +:+ bytes_of rest). split; [done|].
  eapply space_head; [exact Hdec|exact Hsp].
Qed.

Lemma space_rune_chain rest : chain rest -> chain (space_rune :: rest).
Proof. intros H. cbn [chain]. split; [done|]. split; done. Qed.

(** *** The two steps of the normal form keep the runes readable *)

Lemma collapse_same_cont rs :
  chain rs -> same_cont (bytes_of rs) (bytes_of (collapse_runs rs false)).
Proof.
  induction rs as [|u rs IH]; [done|]. intros Hch.
  destruct (is_space_rune u) eqn:Hu.
  - rewrite collapse_cons_space by done.
    destruct (space_unit_head u rs Hch Hu) as (c & t & Heq & Hc).
    rewrite !bytes_of_cons, Heq. by apply same_cont_heads.
  - rewrite collapse_cons_word by done. rewrite !bytes_of_cons.
    apply same_cont_app, IH. apply Hch.
Qed.

Lemma collapse_chain rs : forall b, chain rs -> chain (collapse_runs rs b).
Proof.
  induction rs as [|u rs IH]; intros b Hch; [done|].
  pose proof Hch as (Hdec & Hne & Hrs).
  destruct (is_space_rune u) eqn:Hu.
  - rewrite collapse_cons_space by done.
    destruct b; [by apply IH|]. apply space_rune_chain. by apply IH.
  - rewrite collapse_cons_word by done. cbn [chain].
    split; [|split; [done|by apply IH]].
    rewrite <- Hdec. symmetry. apply decode_app_same_cont; [done|].
    by apply collapse_same_cont.
Qed.

Lemma drop_trailing_chain rs :
  chain rs ->
  chain (drop_trailing_spaces rs)
  /\ same_cont (bytes_of rs) (bytes_of (drop_trailing_spaces rs)).
Proof.
  induction rs as [|u rs IH]; [done|]. intros Hch.
  pose proof Hch as (Hdec & Hne & Hrs).
  destruct (IH Hrs) as [IHc IHs].
  assert (Hkeep : chain (u :: drop_trailing_spaces rs)
                  /\ same_cont (bytes_of (u :: rs))
                               (bytes_of (u :: drop_trailing_spaces rs))).
  { split.
    - cbn [chain]. split; [|done]. rewrite <- Hdec. symmetry.
      by apply decode_app_same_cont.
    - rewrite !bytes_of_cons. by apply same_cont_app. }
  cbn [drop_trailing_spaces].
  destruct (drop_trailing_spaces rs) as [|y ys] eqn:Hd; [|exact Hkeep].
  destruct (is_space_rune u) eqn:Hu; [|exact Hkeep].
  split; [done|].
  destruct (space_unit_head u rs Hch Hu) as (c & t & Heq & Hc).
  rewrite bytes_of_cons, Heq. exact Hc.
Qed.

(** *** The normal form *)

Lemma tidy_collapse_trim rs :
  forall b, tidy b (drop_trailing_spaces (collapse_runs rs b)).
Proof.
  induction rs as [|u rs IH]; intros b; [done|].
  destruct (is_space_rune u) eqn:Hu.
  - rewrite collapse_cons_space by done. destruct b; [apply IH|].
    rewrite drop_trailing_cons_space.
    pose proof (IH true) as Ht.
    destruct (drop_trailing_spaces (collapse_runs rs true)) as [|y ys]; [done|].
    cbn [tidy]. rewrite is_space_space_rune. done.
  - rewrite collapse_cons_word, drop_trailing_cons_word by done.
    cbn [tidy]. rewrite Hu. apply IH.
Qed.

Lemma tidy_fixed rs :
  forall b, tidy b rs -> collapse_runs rs b = rs /\ drop_trailing_spaces rs = rs.
Proof.
  induction rs as [|u rs IH]; intros b; [done|].
  cbn [tidy]. destruct (is_space_rune u) eqn:Hu.
  - intros (-> & -> & Hne & Ht). destruct (IH true Ht) as [Hc Hd].
    rewrite collapse_cons_space, drop_trailing_cons_space, Hc, Hd by done.
    split; [done|]. by destruct rs.
  - intros Ht. destruct (IH false Ht) as [Hc Hd].
    rewrite collapse_cons_word, drop_trailing_cons_word, Hc, Hd by done. done.
Qed.

(** The text [compact] returns, as the runes it is made of. *)
Lemma compact_runes s :
  let rs := drop_trailing_spaces (collapse_runs (range s) true) in
  compact s = bytes_of rs /\ chain rs /\ tidy true rs.
Proof.
  intros rs. split; [|split].
  - rewrite compact_normalize. unfold normalize. by rewrite trim_collapse.
  - apply drop_trailing_chain, collapse_chain.
    apply (range_chain (String.length s)). lia.
  - apply tidy_collapse_trim.
Qed.

Lemma bytes_of_empty rs : chain rs -> bytes_of rs = EmptyString -> rs = [].
Proof.
  destruct rs as [|u rs]; [done|]. intros (_ & Hne & _).
  rewrite bytes_of_cons. destruct (snd u); [done|]. by rewrite append_cons.
Qed.

Lemma collapse_trim_empty rs :
  drop_trailing_spaces (collapse_runs rs true) = [] <->
  forallb is_space_rune rs = true.
Proof.
  induction rs as [|u rs IH]; [done|]. cbn [forallb].
  destruct (is_space_rune u) eqn:Hu.
  - rewrite collapse_cons_space by done. exact IH.
  - rewrite collapse_cons_word, drop_trailing_cons_word by done. done.
Qed.

(** *** The words of a text *)

Lemma fields_collapse rs :
  forall b start,
    (b = true -> start = None) ->
    FieldsFunc_loop IsSpace (collapse_runs rs b) start
    = FieldsFunc_loop IsSpace rs start.
Proof.
  induction rs as [|[r bs] rs IH]; intros b start Hb; [done|].
  destruct (IsSpace r) eqn:Hr.
  - rewrite collapse_cons_space by done. destruct b.
    + rewrite (Hb eq_refl). cbn [FieldsFunc_loop]. rewrite Hr. by apply IH.
    + cbn [FieldsFunc_loop space_rune]. rewrite IsSpace_sp, Hr.
      destruct start; by rewrite IH.
  - rewrite collapse_cons_word by done. cbn [FieldsFunc_loop]. rewrite Hr.
    by apply IH.
Qed.

Lemma fields_drop_trailing rs :
  forall start,
    FieldsFunc_loop IsSpace (drop_trailing_spaces rs) start
    = FieldsFunc_loop IsSpace rs start.
Proof.
  induction rs as [|[r bs] rs IH]; intros start; [done|].
  assert (Hkeep : FieldsFunc_loop IsSpace ((r, bs) :: drop_trailing_spaces rs) start
                  = FieldsFunc_loop IsSpace ((r, bs) :: rs) start).
  { cbn [FieldsFunc_loop]. destruct (IsSpace r), start; by rewrite IH. }
  cbn [drop_trailing_spaces].
  destruct (drop_trailing_spaces rs) as [|y ys] eqn:Hd; [|exact Hkeep].
  unfold is_space_rune. cbn [fst].
  destruct (IsSpace r) eqn:Hr; [|exact Hkeep].
  cbn [FieldsFunc_loop]. rewrite Hr. destruct start; by rewrite <- IH.
Qed.

(** X6.  [compact] is idempotent: compacting a compacted text returns
    it unchanged, whatever bytes the text holds, valid UTF-8 or not. *)
Theorem compact_idempotent (s : string) : compact (compact s) = compact s.
Proof.
  destruct (compact_runes s) as (Hs & Hch & Ht). rewrite Hs at 1.
  destruct (compact_runes (bytes_of (drop_trailing_spaces (collapse_runs (range s) true))))
    as (-> & _ & _).
  rewrite range_bytes_of by done.
  destruct (tidy_fixed _ true Ht) as [-> ->]. by rewrite Hs.
Qed.

(** X7.  [compact] returns the empty text exactly for a text that
    holds white space only (the empty text included): every other text
    keeps something in the log. *)
Theorem compact_empty_iff_blank (s : string) :
  compact s = EmptyString <-> blank s = true.
Proof.
  destruct (compact_runes s) as (-> & Hch & _). unfold blank.
  rewrite <- collapse_trim_empty. split.
  - by apply bytes_of_empty.
  - by intros ->.
Qed.

(** X8.  [compact] loses no word and makes none: the words of the
    compacted text, as [strings.Fields] cuts them, are the words of the
    original text, byte for byte and in the same order. *)
Theorem compact_keeps_words (s : string) : Fields (compact s) = Fields s.
Proof.
  destruct (compact_runes s) as (-> & Hch & _).
  unfold Fields, FieldsFunc. rewrite range_bytes_of by done.
  rewrite fields_drop_trailing. by apply fields_collapse.
Qed.

(** X9.  The shape of a compacted text, read rune by rune: the only
    white space in it is the single space U+0020, which never comes
    first, never last and never twice in a row. *)
Theorem compact_shape (s : string) : tidy true (range (compact s)).
Proof.
  destruct (compact_runes s) as (-> & Hch & Ht). by rewrite range_bytes_of.
Qed.

End CompactMore.

(* ===================================================================== *)
(** ** More on [Migrate] *)
(* ===================================================================== *)

Module MigrationMore.
Import Migration MigrationFacts.

(** *** Discovery *)

Lemma discover_artifacts dir entries :
  forall ms seen,
    discover dir entries ms seen = discover dir (artifacts entries) ms seen.
Proof.
  induction entries as [|e entries IH]; intros ms seen; [done|].
  rewrite artifacts_cons. unfold is_artifact. cbn [discover].
  destruct (IsDir e) eqn:Hd; [apply IH|].
  destruct (HasPrefix (EName e) ".") eqn:Hh; [apply IH|].
  cbn [negb andb discover]. rewrite Hd, Hh.
  destruct (version_of (EName e)) as [err|x]; [done|].
  destruct (seen !! x); [done|].
  destruct (Open dir _) as [err|[err|b]]; [done|done|]. apply IH.
Qed.

Lemma discover_ext dir1 dir2 entries :
  (forall p, Open dir1 p = Open dir2 p) ->
  forall ms seen, discover dir1 entries ms seen = discover dir2 entries ms seen.
Proof.
  intros Hopen. induction entries as [|e entries IH]; intros ms seen; [done|].
  cbn [discover]. rewrite Hopen.
  destruct (IsDir e); [apply IH|].
  destruct (HasPrefix (EName e) "."); [apply IH|].
  destruct (version_of (EName e)) as [err|x]; [done|].
  destruct (seen !! x); [done|].
  destruct (Open dir2 _) as [err|[err|b]]; [done|done|]. apply IH.
Qed.

Lemma seen_of_fresh ms x : ~ In x (map v ms) -> seen_of ms !! x = None.
Proof.
  intros Hn. destruct (seen_of ms !! x) as [n|] eqn:Hs; [|done].
  apply seen_of_lookup in Hs as (m & Hin & <- & _).
  exfalso. apply Hn. by apply in_map.
Qed.

Lemma artifacts_all entries : Forall (fun e => is_artifact e = true) (artifacts entries).
Proof.
  apply List.Forall_forall. intros e He. by apply artifacts_In in He as [_ He].
Qed.

(** Discovery accepts every listing whose artifacts are readable and
    announce versions that differ. *)
Lemma discover_complete dir arts :
  forall ms new,
    Forall2 (unit_of dir) new arts ->
    Forall (fun e => is_artifact e = true) arts ->
    NoDup (map v (ms ++ new)) ->
    discover dir arts ms (seen_of ms) = inr (ms ++ new)%list.
Proof.
  induction arts as [|e arts IH]; intros ms new Hunits Harts Hnd.
  - inversion Hunits; subst. by rewrite app_nil_r.
  - inversion Hunits as [|m e' new' arts' (Hname & Hv & Hopen) Hrest]; subst.
    inversion Harts as [|? ? He Harts']; subst.
    rewrite discover_cons, He, Hv, Hopen.
    rewrite seen_of_fresh.
    + replace (mkMigration (v m) (EName e) (sql m)) with m
        by (destruct m; simpl in *; by subst).
      replace (ms ++ m :: new')%list with ((ms ++ [m]) ++ new')%list
        by (by rewrite <- app_assoc).
      apply IH; [done|done|]. by rewrite <- app_assoc.
    + rewrite map_app in Hnd. apply NoDup_app in Hnd as (_ & Hfresh & _).
      intros Hin. apply (Hfresh (v m)).
      * by apply list_elem_of_In.
      * simpl. left.
Qed.

Lemma Forall2_perm_r {A B} (R : A -> B -> Prop) k k' :
  Permutation k k' ->
  forall l, Forall2 R l k -> exists l', Permutation l l' /\ Forall2 R l' k'.
Proof.
  induction 1 as [|b k k' _ IH|b1 b2 k|k1 k2 k3 _ IH1 _ IH2]; intros l Hl.
  - exists l. done.
  - inversion Hl as [|a ? l0 ? Ha Hl0]; subst.
    destruct (IH l0 Hl0) as (l' & Hp & Hf).
    exists (a :: l'). split; [by constructor|by constructor].
  - inversion Hl as [|a1 ? l0 ? Ha1 Hl0]; subst.
    inversion Hl0 as [|a2 ? l1 ? Ha2 Hl1]; subst.
    exists (a2 :: a1 :: l1).
    split; [apply perm_swap|by repeat constructor].
  - destruct (IH1 l Hl) as (l1 & Hp1 & Hf1).
    destruct (IH2 l1 Hf1) as (l2 & Hp2 & Hf2).
    exists l2. split; [by etrans|done].
Qed.

(** Units with different versions have one sorted order. *)
Lemma sort_Slice_unique ms1 ms2 :
  NoDup (map v ms1) -> Permutation ms1 ms2 -> sort_Slice ms1 = sort_Slice ms2.
Proof.
  intros Hnd Hp.
  apply (StronglySorted_unique_strong by_version).
  - intros x1 x2 Hx1 Hx2 H12 H21.
    rewrite sort_Slice_perm in Hx1, Hx2. rewrite <- Hp in Hx2.
    assert (Hv : v x1 = v x2) by (unfold by_version in *; lia).
    clear H12 H21 Hp. induction ms1 as [|m ms1 IH]; [by apply elem_of_nil in Hx1|].
    simpl in Hnd. apply NoDup_cons in Hnd as [Hm Hnd].
    apply elem_of_cons in Hx1 as [->|Hx1], Hx2 as [->|Hx2]; try done.
    + exfalso. apply Hm. rewrite Hv. by apply list_elem_of_fmap_2.
    + exfalso. apply Hm. rewrite <- Hv. by apply list_elem_of_fmap_2.
    + by apply IH.
  - apply sort_Slice_sorted.
  - apply sort_Slice_sorted.
  - by rewrite !sort_Slice_perm.
Qed.

(** Both sides of [strconv.ParseUint]'s loop keep the number from
    going negative. *)
Lemma ParseUint_loop_nonneg s : forall n z,
  0 <= n -> ParseUint_loop s n = inr z -> 0 <= z.
Proof.
  induction s as [|c s IH]; intros n z Hn; simpl.
  - by intros [= <-].
  - destruct (_ && _) eqn:Hdigit; [|done].
    apply andb_true_iff in Hdigit as [Hlo _]. apply Z.leb_le in Hlo.
    destruct (uintCutoff <=? n); [done|].
    destruct (maxUint64 <? _); [done|]. apply IH. lia.
Qed.

Section Engine.

Context {U : Type}.
Variable E : Engine U.

(** X10.  Sub-directories and hidden names play no part: two
    directories whose listings hold the same artifacts, with the same
    files behind them, give the same run, whatever else the listings
    hold. *)
Theorem directories_and_hidden_names_ignored
    (dir1 dir2 : FS) (l1 l2 : list DirEntry) (w : World U) :
  ReadDir dir1 "migrations" = inr l1 ->
  ReadDir dir2 "migrations" = inr l2 ->
  (forall p, Open dir1 p = Open dir2 p) ->
  artifacts l1 = artifacts l2 ->
  Migrate E dir1 w = Migrate E dir2 w.
Proof.
  intros H1 H2 Hopen Harts. unfold Migrate. rewrite H1, H2.
  rewrite (discover_artifacts dir1 l1), (discover_artifacts dir2 l2), Harts.
  by rewrite (discover_ext dir1 dir2).
Qed.

(** X11.  The order in which the directory lists its artifacts does not
    matter to a run that gets past discovery: a second listing with the
    same artifacts in another order gives the same result and the same
    world. *)
Theorem listing_order_is_irrelevant
    (dir1 dir2 : FS) (l1 l2 : list DirEntry) (ms1 : list migration) (w : World U) :
  ReadDir dir1 "migrations" = inr l1 ->
  ReadDir dir2 "migrations" = inr l2 ->
  (forall p, Open dir1 p = Open dir2 p) ->
  Permutation (artifacts l1) (artifacts l2) ->
  discover dir1 l1 [] ∅ = inr ms1 ->
  Migrate E dir1 w = Migrate E dir2 w.
Proof.
  intros H1 H2 Hopen Hperm Hd1.
  destruct (discover_ok_versions _ _ _ Hd1) as [Hunits Hnd].
  destruct (Forall2_perm_r _ _ _ Hperm _ Hunits) as (ms2 & Hp & Hunits2).
  assert (Hd2 : discover dir2 l2 [] ∅ = inr ms2).
  { rewrite discover_artifacts, <- (discover_ext dir1 dir2) by done.
    apply (discover_complete dir1 (artifacts l2) [] ms2); [done|apply artifacts_all|].
    simpl. by rewrite <- Hp. }
  unfold Migrate. rewrite H1, H2, Hd1, Hd2.
  by rewrite (sort_Slice_unique ms1 ms2).
Qed.

(** X12.  An artifact that cannot be opened, or whose contents cannot
    be read, stops the run before a transaction is begun: the error
    names the artifact and wraps the cause, and the store, the driver
    and the log are left as they were. *)
Theorem unreadable_artifact_stops_discovery
    (dir : FS) (w : World U) (pre post : list DirEntry) (e : DirEntry)
    (ms1 : list migration) (x : Z) (err : error) :
  ReadDir dir "migrations" = inr (pre ++ e :: post)%list ->
  discover dir pre [] ∅ = inr ms1 ->
  is_artifact e = true ->
  version_of (EName e) = inr x ->
  ~ In x (map v ms1) ->
  Open dir ("migrations/" +:+ EName e) = inl err
  \/ Open dir ("migrations/" +:+ EName e) = inr (inl err) ->
  Migrate E dir w = (Some (ERead (EName e) err), w).
Proof.
  intros Hdir Hpre He Hv Hfresh Hopen.
  apply Migrate_discovery_failed with (entries := (pre ++ e :: post)%list); [done|].
  change (∅ : gmap Z string) with (seen_of []).
  rewrite discover_app. change (seen_of []) with (∅ : gmap Z string).
  rewrite Hpre, discover_cons, He, Hv, seen_of_fresh by done.
  by destruct Hopen as [-> | ->].
Qed.

(** *** The transaction *)

Lemma ok_In c x cs : In (c, x) (ok cs) -> In c cs /\ x = None.
Proof.
  unfold ok. intros (c' & [= -> <-] & Hin)%in_map_iff. done.
Qed.

Lemma script_In c ms : In c (script ms) -> exists q args, c = CExec q args.
Proof.
  unfold script. intros (m & _ & Hin)%in_flat_map.
  destruct Hin as [<-|[<-|[]]]; by eexists _, _.
Qed.

Lemma prelude_script_In c x ms :
  In (c, x) (ok (prelude ++ script ms)) -> c <> CRollback.
Proof.
  intros [Hin _]%ok_In. apply in_app_iff in Hin as [Hin|Hin].
  - destruct Hin as [<-|[<-|[]]]; done.
  - apply script_In in Hin as (q & args & ->). done.
Qed.

(** No call between [BeginTx] and the closing call is a [Rollback]. *)
Lemma tx_shape_no_rollback cur ms r tr x :
  tx_shape cur ms r tr -> ~ In (CRollback, x) tr.
Proof.
  intros Hshape Hin.
  assert (Hok : forall l, ~ In (CRollback, x) (ok (prelude ++ script l)))
    by (intros l Hl; by apply prelude_script_In in Hl).
  inversion Hshape; subst.
  - destruct Hin as [[=]|[]].
  - destruct Hin as [[=]|[[=]|[]]].
  - apply in_app_iff in Hin as [Hin|[[=]|[]]]. by apply Hok in Hin.
  - apply in_app_iff in Hin as [Hin|[[=]|[[=]|[]]]]. by apply Hok in Hin.
  - apply in_app_iff in Hin as [Hin|[[=]|[]]]. by apply Hok in Hin.
  - rewrite app_assoc, ok_app in Hin.
    apply in_app_iff in Hin as [Hin|[[=]|[]]]. by apply Hok in Hin.
Qed.

(** X13.  [Rollback] reaches the driver exactly when a step between
    [BeginTx] and [Commit] failed: never when reading the directory,
    discovery or [BeginTx] failed, never once [Commit] has reached the
    driver, whether it succeeded or failed there. *)
Theorem rollback_only_after_failed_step (dir : FS) (w : World U) :
  exists tr,
    calls (snd (Migrate E dir w)) = (calls w ++ tr)%list
    /\ ((exists x, In (CRollback, x) tr) <->
        (exists e, fst (Migrate E dir w) = Some e /\ step_error e = true)).
Proof.
  destruct (ReadDir dir "migrations") as [err|entries] eqn:Hdir.
  { rewrite (Migrate_readdir_failed E dir w err Hdir). exists [].
    rewrite app_nil_r. split; [done|]. split; [by intros [x []]|].
    by intros (e & [= <-] & He). }
  destruct (discover dir entries [] ∅) as [e|ms] eqn:Hdisc.
  { rewrite (Migrate_discovery_failed E dir w entries e Hdir Hdisc). exists [].
    rewrite app_nil_r. split; [done|]. split; [by intros [x []]|].
    intros (e' & [= <-] & He). apply discover_error_kind in Hdisc. congruence. }
  destruct (Migrate E dir w) as [r w'] eqn:Hm. cbn [fst snd].
  destruct (Migrate_tx_spec E dir w entries ms r w' Hdir Hdisc Hm)
    as [(err & _ & -> & ->)|(_ & tr & closing & logs & Hshape & Hcalls & _ & Hr)].
  { exists [(CBegin, Some err)]. split; [done|]. split.
    - by intros (x & [[=]|[]]).
    - by intros (e & [= <-] & He). }
  exists ((CBegin, None) :: tr ++ closing)%list. split; [done|].
  split.
  - intros (x & [[=]|Hin]). apply in_app_iff in Hin as [Hin|Hin].
    { by apply (tx_shape_no_rollback _ _ _ _ _ Hshape) in Hin. }
    destruct r as [e|]; [|by destruct Hr as [-> _]].
    exists e. split; [done|]. destruct Hr as (_ & y & ->).
    by destruct (step_error e).
  - intros (e & -> & He). destruct Hr as (_ & y & ->). rewrite He.
    eexists. right. apply in_app_iff. right. by left.
Qed.


(** The log of the transaction, from the [defer] to the last [return]. *)
Lemma run_tx_log ms start (tx : Tx U) w r tx' w' :
  done tx = false ->
  run_tx E ms start tx w = (r, tx', w') ->
  let todo := pending (current_version (work tx)) ms in
  match r with
  | None =>
    out w' =
    (out w ++ map applied_entry todo
     ++ (if 0 <? Z.of_nat (length todo)
         then [done_entry (Z.of_nat (length todo)) (eng_now E (clock w') - start)]
         else []))%list
  | Some e =>
    exists ran rest,
      todo = (ran ++ rest)%list /\ out w' = (out w ++ map applied_entry ran)%list
  end.
Proof.
  intros Hdone. unfold run_tx.
  destruct (Tx_ExecContext E tx createLedgerSQL [] w) as [[err1 tx1] w1] eqn:Hcreate.
  apply Tx_ExecContext_inv in Hcreate as (Hr1 & Hdone1 & Hst1); [|done].
  destruct err1 as [e1|].
  { intros [= <- <- <-]. eexists [], _. split; [done|]. apply Hr1. }
  specialize (Hst1 eq_refl).
  destruct (sql_exec_create E [] (work tx)) as (st1 & Hc & _ & _ & Hcur & _).
  rewrite Hc in Hst1. injection Hst1 as Hst1.
  destruct (Tx_QueryRow_Scan E tx1 currentVersionSQL w1) as [r2 w2] eqn:Hquery.
  apply Tx_QueryRow_Scan_inv in Hquery as (Hr2 & Hq); [|done].
  pose proof (reaches_trans _ _ _ _ _ _ _ _ Hr1 Hr2) as Hr12.
  destruct r2 as [e2|cur].
  { intros [= <- <- <-]. eexists [], _. split; [done|]. apply Hr12. }
  specialize (Hq cur eq_refl). apply sql_query_current in Hq as [_ ->].
  rewrite <- Hst1, Hcur.
  set (P := pending (current_version (work tx)) ms).
  destruct (apply_pending E ms _ 0 tx1 w2) as [[r3 tx3] w3] eqn:Hloop.
  apply apply_pending_spec in Hloop as [Hdone3 Hloop]; [|done].
  fold P in Hloop.
  destruct r3 as [e3|applied].
  { intros [= <- <- <-].
    destruct Hloop as (ran & m & rest & err & Hpend & [[_ Hr3]|[_ Hr3]]);
      exists ran, (m :: rest); (split; [done|]);
      apply (reaches_trans _ _ _ _ _ _ _ _ Hr12 Hr3). }
  destruct Hloop as (-> & Hr3 & _).
  pose proof (reaches_trans _ _ _ _ _ _ _ _ Hr12 Hr3) as (_ & _ & Ho & _).
  cbn [app] in Ho.
  destruct (Tx_Commit E tx3 w3) as [[err4 tx4] w4] eqn:Hcommit.
  apply Tx_Commit_inv in Hcommit as (Hdone4 & _ & Hw4); [|done].
  destruct err4 as [e4|].
  { intros [= <- <- <-]. subst w4. exists P, []. rewrite app_nil_r.
    split; [done|]. unfold advance. cbn [out]. by rewrite app_nil_r. }
  subst w4. rewrite Z.add_0_l.
  destruct (0 <? Z.of_nat (length P)); intros [= <- <- <-];
    unfold emit, done_entry; cbn [out clock];
    rewrite Ho, ?app_nil_r, <- ?List.app_assoc; done.
Qed.

(** X14.  The log of a successful run: one [db.migrate.applied] entry
    for each unit applied, in the order of their versions, then one
    [db.migrate.done] entry that counts them and gives the time the run
    took; a run that had nothing to apply logs nothing. *)
Theorem successful_run_log
    (dir : FS) (w w' : World U) (entries : list DirEntry) (ms : list migration) :
  ReadDir dir "migrations" = inr entries ->
  discover dir entries [] ∅ = inr ms ->
  Migrate E dir w = (None, w') ->
  let todo := pending (current_version (committed w)) (sort_Slice ms) in
  out w' =
  (out w ++ map applied_entry todo
   ++ match todo with
      | [] => []
      | _ :: _ => [done_entry (Z.of_nat (length todo))
                     (eng_now E (clock w') - eng_now E (clock w))]
      end)%list.
Proof.
  intros Hdir Hdisc Hm todo. revert Hm.
  unfold Migrate, BeginTx. rewrite Hdir, Hdisc.
  destruct (eng_fault E (clock w)) as [err|]; [done|].
  destruct (run_tx E _ _ _ _) as [[r1 tx1] w1] eqn:Hrun.
  intros [= -> <-].
  pose proof Hrun as Hspec.
  apply run_tx_spec in Hspec as (tr & logs & _ & Hd & _); [|done].
  apply run_tx_log in Hrun; [|done]. cbn [work tick out] in Hrun.
  rewrite deferred_rollback_done by done. rewrite Hrun.
  fold todo. destruct todo as [|m l]; [done|].
  destruct (Z.ltb_spec 0 (Z.of_nat (length (m :: l)))) as [_|Hle]; [done|].
  simpl in Hle. lia.
Qed.


Lemma sql_exec_body_ledger q (st st1 : Store U) rows :
  keeps_ledger E ->
  sql_exec E q [] st = (st1, None) ->
  ledger st = Some rows ->
  ledger st1 = Some rows.
Proof.
  intros [Hkeep _]. unfold sql_exec. intros Hexec Hrows. rewrite Hrows in Hexec.
  destruct (String.eqb q createLedgerSQL); [by injection Hexec as <-|].
  destruct (String.eqb q recordSQL); [done|].
  rewrite <- Hrows, <- (Hkeep q [] st). by rewrite Hexec.
Qed.

Lemma apply_units_ledger todo :
  keeps_ledger E ->
  forall (st st' : Store U) rows,
    ledger st = Some rows ->
    apply_units E todo st = Some st' ->
    ledger st' = Some (rows ++ map v todo)%list.
Proof.
  intros Hkeep. induction todo as [|m todo IH]; intros st st' rows Hrows.
  - intros [= <-]. by rewrite app_nil_r.
  - cbn [apply_units].
    destruct (sql_exec E (sql m) [] st) as [st1 [e1|]] eqn:Hbody; [done|].
    destruct (sql_exec E recordSQL [v m] st1) as [st2 [e2|]] eqn:Hrec; [done|].
    intros Hrest.
    apply (sql_exec_body_ledger _ _ _ rows Hkeep) in Hbody; [|done].
    apply sql_exec_record in Hrec as (rows1 & Hl1 & Hl2); [|apply Hkeep].
    rewrite Hbody in Hl1. injection Hl1 as <-.
    rewrite (IH st2 st' (rows ++ [v m])%list Hl2 Hrest).
    by rewrite <- List.app_assoc.
Qed.

(** X16.  What a successful run leaves in the ledger, when no unit
    touches the ledger table itself (its rows, or with a trigger what
    its [INSERT] does): the rows it held, then the version of every
    unit applied, in the order of application, and nothing else. *)
Theorem successful_run_ledger (dir : FS) (w w' : World U) :
  keeps_ledger E ->
  Migrate E dir w = (None, w') ->
  exists entries ms,
    ReadDir dir "migrations" = inr entries
    /\ discover dir entries [] ∅ = inr ms
    /\ ledger (committed w') =
       Some (default [] (ledger (committed w))
             ++ map v (pending (current_version (committed w)) (sort_Slice ms)))%list.
Proof.
  intros Hkeep Hm.
  destruct (ReadDir dir "migrations") as [err|entries] eqn:Hdir.
  { by rewrite (Migrate_readdir_failed E dir w err Hdir) in Hm. }
  destruct (discover dir entries [] ∅) as [e|ms] eqn:Hdisc.
  { by rewrite (Migrate_discovery_failed E dir w entries e Hdir Hdisc) in Hm. }
  exists entries, ms. split; [done|]. split; [done|].
  destruct (Migrate_tx_spec E dir w entries ms None w' Hdir Hdisc Hm)
    as [(err & _ & [=] & _)|(_ & tr & closing & logs & _ & _ & _ & _ & Hunits)].
  destruct (sql_exec_create E [] (committed w)) as (st1 & Hc & _ & Hl & _).
  rewrite Hc in Hunits. cbn [fst] in Hunits.
  by apply (apply_units_ledger _ Hkeep st1 _ _ Hl).
Qed.

End Engine.

(** X17.  A version that discovery accepts fits the [int] of a 64-bit
    platform: a name whose digits overflow it is refused, never wrapped
    around. *)
Theorem accepted_version_fits_int (name : string) (z : Z) :
  version_of name = inr z -> - 2 ^ 63 <= z < 2 ^ 63.
Proof.
  unfold version_of, Atoi.
  destruct (SplitN2_head name "_") as [|c t]; [done|].
  destruct (ParseUint _) as [e|un] eqn:Hp; [done|].
  assert (0 <= un).
  { unfold ParseUint in Hp.
    match type of Hp with match ?d with _ => _ end = _ => destruct d; [done|] end.
    by eapply ParseUint_loop_nonneg in Hp. }
  destruct (Ascii.eqb c "-"); cbn [negb andb].
  - destruct (Z.ltb_spec (2 ^ 63) un); [done|]. intros [= <-]. lia.
  - destruct (Z.leb_spec (2 ^ 63) un); [done|]. intros [= <-]. lia.
Qed.

(** X18.  Zeros in front of the digits do not change the version a
    name announces: a name that starts with a digit and the same name
    with one more ["0"] in front are accepted with the same version, or
    both refused. *)
Theorem zero_padding_keeps_version (c : ascii) (t : string) (z : Z) :
  (0x30 <=? byte_of c) && (byte_of c <=? 0x39) = true ->
  version_of (String "0" (String c t)) = inr z <-> version_of (String c t) = inr z.
Proof.
  intros Hdigit. unfold version_of.
  assert (Hc : Ascii.eqb c "_" = false /\ Ascii.eqb c "+" = false
               /\ Ascii.eqb c "-" = false).
  { apply andb_true_iff in Hdigit as [Hlo Hhi]. apply Z.leb_le in Hlo, Hhi.
    repeat split; apply Ascii.eqb_neq; intros ->; vm_compute in Hlo, Hhi; done. }
  destruct Hc as (Hu & Hp & Hm).
  cbn [SplitN2_head]. change (Ascii.eqb "0" "_") with false. cbv iota. rewrite Hu.
  set (h := SplitN2_head t "_").
  unfold Atoi. change (Ascii.eqb "0" "-") with false.
  change (Ascii.eqb "0" "+") with false. rewrite Hp, Hm. cbn [orb negb andb].
  assert (Hparse : ParseUint (String "0" (String c h)) = ParseUint (String c h)).
  { unfold ParseUint. cbn [ParseUint_loop]. done. }
  rewrite Hparse. destruct (ParseUint (String c h)) as [e|un]; [done|].
  destruct (2 ^ 63 <=? un); done.
Qed.

Import Sample.

Lemma zero_padding_keeps_version_witness :
  version_of "01_init.sql" = inr 1 <-> version_of "1_init.sql" = inr 1.
Proof.
  apply (zero_padding_keeps_version "1" "_init.sql" 1). reflexivity.
Defined.

Lemma directories_and_hidden_names_ignored_witness :
  Migrate (engine no_faults) two_units_cluttered fresh
  = Migrate (engine no_faults) two_units fresh.
Proof.
  apply (directories_and_hidden_names_ignored (engine no_faults)
           two_units_cluttered two_units
           [mkDirEntry true "old"; mkDirEntry false ".gitkeep";
            mkDirEntry false "001_init.sql"; mkDirEntry true "not_a_version";
            mkDirEntry false "002_add_posts.sql"]
           [mkDirEntry false "001_init.sql"; mkDirEntry false "002_add_posts.sql"]
           fresh).
  - reflexivity.
  - reflexivity.
  - intros p. reflexivity.
  - reflexivity.
Defined.

Lemma listing_order_is_irrelevant_witness :
  Migrate (engine no_faults) two_units_reversed fresh
  = Migrate (engine no_faults) two_units fresh.
Proof.
  apply (listing_order_is_irrelevant (engine no_faults)
           two_units_reversed two_units
           [mkDirEntry false "002_add_posts.sql"; mkDirEntry false "001_init.sql"]
           [mkDirEntry false "001_init.sql"; mkDirEntry false "002_add_posts.sql"]
           [mkMigration 2 "002_add_posts.sql" "CREATE TABLE posts(id INTEGER PRIMARY KEY);";
            mkMigration 1 "001_init.sql" "CREATE TABLE users(id INTEGER PRIMARY KEY);"]
           fresh).
  - reflexivity.
  - reflexivity.
  - intros p. reflexivity.
  - apply perm_swap.
  - vm_compute. reflexivity.
Defined.

Lemma unreadable_artifact_stops_discovery_witness :
  Migrate (engine no_faults) one_unit_gone fresh
  = (Some (ERead "003_gone.sql" (errorString "file does not exist")), fresh).
Proof.
  apply (unreadable_artifact_stops_discovery (engine no_faults) one_unit_gone fresh
           [mkDirEntry false "001_init.sql"] [] (mkDirEntry false "003_gone.sql")
           [mkMigration 1 "001_init.sql" "CREATE TABLE users(id INTEGER PRIMARY KEY);"]
           3 (errorString "file does not exist")).
  - reflexivity.
  - vm_compute. reflexivity.
  - reflexivity.
  - vm_compute. reflexivity.
  - simpl. lia.
  - left. vm_compute. reflexivity.
Defined.

Lemma successful_run_log_witness :
  out after_two_units =
  [applied_entry (mkMigration 1 "001_init.sql" "CREATE TABLE users(id INTEGER PRIMARY KEY);");
   applied_entry (mkMigration 2 "002_add_posts.sql" "CREATE TABLE posts(id INTEGER PRIMARY KEY);");
   done_entry 2 (eng_now (engine no_faults) (clock after_two_units) - 0)].
Proof.
  apply (successful_run_log (engine no_faults) two_units fresh after_two_units
           [mkDirEntry false "001_init.sql"; mkDirEntry false "002_add_posts.sql"]
           [mkMigration 1 "001_init.sql" "CREATE TABLE users(id INTEGER PRIMARY KEY);";
            mkMigration 2 "002_add_posts.sql" "CREATE TABLE posts(id INTEGER PRIMARY KEY);"]).
  - reflexivity.
  - vm_compute. reflexivity.
  - vm_compute. reflexivity.
Defined.


Lemma successful_run_ledger_witness :
  exists entries ms,
    ReadDir two_units "migrations" = inr entries
    /\ discover two_units entries [] ∅ = inr ms
    /\ ledger (committed after_two_units) =
       Some (default [] (ledger (committed fresh))
             ++ map v (pending (current_version (committed fresh)) (sort_Slice ms)))%list.
Proof.
  apply (successful_run_ledger (engine no_faults) two_units fresh after_two_units).
  - split.
    + intros q args st. simpl. destruct (HasPrefix q "INVALID"); reflexivity.
    + intros x st. reflexivity.
  - vm_compute. reflexivity.
Defined.

Lemma accepted_version_fits_int_witness :
  - 2 ^ 63 <= 9223372036854775807 < 2 ^ 63.
Proof.
  apply (accepted_version_fits_int "9223372036854775807_last.sql").
  vm_compute. reflexivity.
Defined.

End MigrationMore.

(* ===================================================================== *)
(** ** Properties of [WithTx] *)
(* ===================================================================== *)

Module StoreFacts.
Import Migration MigrationFacts store.

Section Engine.

Context {U : Type}.
Variable E : Engine U.

(** The statements of [fn] run on the transaction: they leave it open
    for [database/sql] and reach the driver as statements; the database
    holds what it held unless one of them leaves the transaction. *)
Lemma run_fn_spec fn :
  forall (tx : Tx U) w err tx' w',
    done tx = false ->
    run_fn E fn tx w = (err, tx', w') ->
    done tx' = false
    /\ exists body,
         reaches E w w' body []
         /\ forallb is_statement body = true.
Proof.
  induction fn as [r|q args k IH|q k IH]; intros tx w err tx' w' Hdone; cbn [run_fn].
  - intros [= <- <- <-]. split; [done|]. exists []. split; [apply reaches_refl|done].
  - destruct (Tx_ExecContext E tx q args w) as [[e1 tx1] w1] eqn:Hexec.
    apply Tx_ExecContext_inv in Hexec as (Hr1 & Hdone1 & _); [|done].
    intros (Hd & body & Hr2 & Hb)%IH; [|done]. split; [done|].
    exists ((CExec q args, e1) :: body). split; [|cbn [forallb]; by rewrite Hb].
    eapply reaches_eq; [exact (reaches_trans _ _ _ _ _ _ _ _ Hr1 Hr2)|done|done].
  - destruct (Tx_QueryRow_Scan E tx q w) as [r1 w1] eqn:Hq.
    apply Tx_QueryRow_Scan_inv in Hq as (Hr1 & _); [|done].
    intros (Hd & body & Hr2 & Hb)%IH; [|done]. split; [done|].
    exists ((CQuery q, match r1 with inl e => Some e | inr _ => None end) :: body).
    split; [|cbn [forallb]; by rewrite Hb].
    eapply reaches_eq; [exact (reaches_trans _ _ _ _ _ _ _ _ Hr1 Hr2)|done|done].
Qed.

Lemma store_rollback_done (tx : Tx U) w :
  done tx = true -> deferred_rollback E tx w = w.
Proof. unfold deferred_rollback, Tx_Rollback. by intros ->. Qed.

Lemma store_rollback_open (tx : Tx U) w :
  done tx = false ->
  exists outcome,
    committed (deferred_rollback E tx w) = committed w
    /\ calls (deferred_rollback E tx w) = (calls w ++ [(CRollback, outcome)])%list
    /\ out (deferred_rollback E tx w)
       = (out w ++ match outcome with
                   | Some x => if decide (x = ErrTxDone) then [] else [rollback_entry x]
                   | None => []
                   end)%list.
Proof.
  unfold deferred_rollback, Tx_Rollback. intros ->.
  exists (close_error E CRollback tx w).
  destruct (close_error E CRollback tx w) as [e|]; [|by rewrite app_nil_r].
  case_decide; [by rewrite app_nil_r|done].
Qed.

(** X19.  [WithTx] is all or nothing.  When it returns an error,
    whether from [BeginTx], from the callback or from [Commit], the
    database holds what it held before, as long as no statement of the
    callback ends the transaction itself; when it returns nil, the
    database holds what the callback's statements made of it inside
    the transaction. *)
Theorem WithTx_all_or_nothing (fn : TxProg) (w : World U) :
  match fst (WithTx E fn w) with
  | Some e => stays_in_tx E -> committed (snd (WithTx E fn w)) = committed w
  | None =>
    eng_fault E (clock w) = None
    /\ exists tx' w1,
         run_fn E fn (mkTx (committed w) false) (tick CBegin None w) = (None, tx', w1)
         /\ committed (snd (WithTx E fn w)) = work tx'
  end.
Proof.
  unfold WithTx, BeginTx.
  destruct (eng_fault E (clock w)) as [err|]; [done|].
  destruct (run_fn E fn _ _) as [[err tx1] w1] eqn:Hrun.
  pose proof Hrun as Hspec.
  apply run_fn_spec in Hspec as (Hd & body & (_ & _ & _ & Hkeep) & _); [|done].
  cbn [tick committed] in Hkeep.
  destruct err as [e|].
  { cbn [fst snd]. intros Hstay.
    destruct (store_rollback_open tx1 w1 Hd) as (x & -> & _). by apply Hkeep. }
  destruct (Tx_Commit E tx1 w1) as [[cerr tx2] w2] eqn:Hcommit.
  apply Tx_Commit_inv in Hcommit as (Hd2 & _ & Hw2); [|done].
  cbn [fst snd]. rewrite store_rollback_done by done.
  destruct cerr as [e|]; subst w2; [exact Hkeep|].
  split; [done|]. by exists tx1, w1.
Qed.

(** X20.  [WithTx] closes the transaction it opens, once.  After a
    [BeginTx] that succeeded come the statements of the callback, then
    one closing call: [Rollback] when the callback returned an error,
    which [WithTx] returns as it is, else [Commit], whose outcome
    [WithTx] returns.  When [BeginTx] fails its error is returned as it
    is and the callback does not run. *)
Theorem WithTx_closes_transaction (fn : TxProg) (w : World U) :
  (exists err,
     eng_fault E (clock w) = Some err
     /\ WithTx E fn w = (Some err, tick CBegin (Some err) w))
  \/ (exists body closing,
        calls (snd (WithTx E fn w))
        = (calls w ++ (CBegin, None) :: body ++ [closing])%list
        /\ forallb is_statement body = true
        /\ match fst (fst (run_fn E fn (mkTx (committed w) false)
                             (tick CBegin None w))) with
           | Some e =>
             fst (WithTx E fn w) = Some e /\ fst closing = CRollback
           | None =>
             closing = (CCommit, fst (WithTx E fn w))
           end).
Proof.
  unfold WithTx, BeginTx.
  destruct (eng_fault E (clock w)) as [err|]; [left; by exists err|]. right.
  destruct (run_fn E fn _ _) as [[err tx1] w1] eqn:Hrun.
  pose proof Hrun as Hspec.
  apply run_fn_spec in Hspec as (Hd & body & (_ & Hcl & _) & Hbody); [|done].
  cbn [tick calls] in Hcl. cbn [fst].
  destruct err as [e|].
  { cbn [fst snd].
    destruct (store_rollback_open tx1 w1 Hd) as (x & _ & -> & _).
    exists body, (CRollback, x). rewrite Hcl, <- !List.app_assoc.
    split; [done|]. split; [done|]. done. }
  destruct (Tx_Commit E tx1 w1) as [[cerr tx2] w2] eqn:Hcommit.
  apply Tx_Commit_inv in Hcommit as (Hd2 & _ & Hw2); [|done].
  cbn [fst snd]. rewrite store_rollback_done by done.
  exists body, (CCommit, cerr). split; [|done].
  destruct cerr as [e|]; subst w2; unfold advance; cbn [calls];
    by rewrite Hcl, <- !List.app_assoc.
Qed.


End Engine.

End StoreFacts.
